(** * Key resolution cascade and key-change fan-out of dendrite

  A shallow embedding of

  - [serverkeyapi/internal/api.go]: [ServerKeyAPI.FetchKeys] and its three
    stages [handleLocalKeys], [handleDatabaseKeys], [handleFetcherKeys],
    together with [StoreKeys];
  - [syncapi/consumers/keychange.go]: [OutputKeyChangeEventConsumer.onMessage]
    and [updateOffset].

  Go maps are finite maps ([gmap]).  The maps [requests] and [results] are
  shared, mutable objects in the source: they live in the state that every
  stage threads through, and the final content of [requests] is what the
  caller of [FetchKeys] observes in the map it passed.  Calls to the
  collaborators (clock, key database, key fetchers, sharing service,
  notifier, logger) are effects: each one is appended to a trace together
  with its arguments and its answer, and the collaborators themselves are
  arbitrary functions over an abstract world.  A collaborator may answer
  with any map and any error; it is taken to leave the map it is passed as
  it is, and the response of the sharing service is taken to carry an
  allocated map.  Calls are modelled one at a time and none of them
  panics. *)

From stdpp Require Import gmap strings list fin_maps.

(** ** The parts of the Go runtime and of gomatrixserverlib that the code uses *)

Module gomatrixserverlib.

(** [type Timestamp uint64], milliseconds since the epoch. *)
Definition Timestamp := Z.

(** [type PublicKeyLookupRequest struct { ServerName; KeyID }], a map key. *)
Record PublicKeyLookupRequest := {
  ServerName : string;
  KeyID : string
}.

(** [type VerifyKey struct { Key Base64Bytes }]. *)
Record VerifyKey := { Key : list Byte.byte }.

(** [type PublicKeyLookupResult struct { VerifyKey; ExpiredTS; ValidUntilTS }];
    the embedded struct is the field [toVerifyKey]. *)
Record PublicKeyLookupResult := {
  toVerifyKey : VerifyKey;
  ExpiredTS : Timestamp;
  ValidUntilTS : Timestamp
}.

End gomatrixserverlib.

Import gomatrixserverlib.

#[global] Instance PublicKeyLookupRequest_eq_dec : EqDecision PublicKeyLookupRequest.
Proof. solve_decision. Defined.

#[global] Instance PublicKeyLookupRequest_countable : Countable PublicKeyLookupRequest.
Proof.
  apply (inj_countable'
           (fun r => (gomatrixserverlib.ServerName r, gomatrixserverlib.KeyID r))
           (fun p => {| gomatrixserverlib.ServerName := p.1;
                        gomatrixserverlib.KeyID := p.2 |})).
  by intros [].
Defined.

(** [map[PublicKeyLookupRequest]Timestamp] and
  [map[PublicKeyLookupRequest]PublicKeyLookupResult]. *)
Abbreviation Requests := (gmap PublicKeyLookupRequest Timestamp).
Abbreviation Results := (gmap PublicKeyLookupRequest PublicKeyLookupResult).

(** [time.Duration], nanoseconds. *)
Definition Duration := Z.

Definition Second : Duration := 1000000000%Z.

(** [context.Context], as the tree the constructors of package [context]
  build. *)
Inductive Context :=
| Background
| WithCancel (parent : Context)
| WithTimeout (parent : Context) (d : Duration).

#[global] Instance Context_eq_dec : EqDecision Context.
Proof. solve_decision. Defined.

(** [derivedFrom c root]: [c] is [root] or one of its descendants, so that
  cancelling [root] (or reaching its deadline) cancels [c]. *)
Fixpoint derivedFrom (c root : Context) : bool :=
  if decide (c = root) then true else
  match c with
  | Background => false
  | WithCancel p => derivedFrom p root
  | WithTimeout p _ => derivedFrom p root
  end.

(** The functions of [time] and gomatrixserverlib that the code calls; they
  are not part of the repository and are taken as an interface. *)
Class Runtime := {
  Time : Type;
  time_Add : Time -> Duration -> Time;
  AsTimestamp : Time -> Timestamp;
  PublicKeyNotExpired : Timestamp;
  WasValidAt : PublicKeyLookupResult -> Timestamp -> bool -> bool
}.

(** Go [error] values: those a collaborator returns, and the two that
  [api.go] builds with [fmt.Errorf]. *)
Inductive error :=
| ExternalError (msg : string)
| StoreKeysFailed (cause : error)
| RequestUnsatisfied (serverName keyID : string).

(** ** State passing

  A Go function that mutates shared objects and calls collaborators is a
  function from the state before to a result and the state after. *)

Definition StateM (S A : Type) : Type := S -> A * S.

Definition ret {S A} (a : A) : StateM S A := fun st => (a, st).

Definition bind {S A B} (m : StateM S A) (k : A -> StateM S B) : StateM S B :=
  fun st => let '(a, st') := m st in k a st'.

Notation "'let*' x ':=' m 'in' k" := (bind m (fun x => k))
  (at level 10, x pattern, m at level 100, k at level 200).

(** [for ... range]: the body runs once per entry.  Go leaves the order in
  which a map is ranged over unspecified; the model ranges in the order of
  [map_to_list]. *)
Fixpoint forEach {S A} (l : list A) (body : A -> StateM S unit) : StateM S unit :=
  match l with
  | [] => ret tt
  | x :: l' => let* _ := body x in forEach l' body
  end.

(** ** serverkeyapi/internal/api.go *)

Module ServerKeyAPI.

Section Model.

Context {rt : Runtime}.

(** The world outside the resolver: clock, database and network. *)
Variable W : Type.

(** [time.Now()]. *)
Variable time_Now : W -> Time * W.

(** [gomatrixserverlib.KeyFetcher]. *)
Record KeyFetcher := {
  FetcherName : string;
  FetchKeys_of : Context -> Requests -> W -> (Results * option error) * W
}.

(** [gomatrixserverlib.KeyDatabase]: a fetcher that can also store. *)
Record KeyDatabase := {
  toKeyFetcher : KeyFetcher;
  StoreKeys_of : Context -> Results -> W -> option error * W
}.

Record KeyRing := {
  KeyFetchers : list KeyFetcher;
  KeyDatabase_of : KeyDatabase
}.

Record ServerKeyAPI := {
  ServerName : string;
  ServerPublicKey : list Byte.byte;
  ServerKeyID : string;
  ServerKeyValidity : Duration;
  OurKeyRing : KeyRing
}.

Inductive LogEntry :=
| LogFetching (fetcher_name : string) (n : nat)
| LogFailedToRetrieve (err : error) (fetcher_name : string) (n : nat)
| LogFailedToStore (err : error) (fetcher_name database_name : string)
| LogUpdated (fetcher_name : string) (stored total : nat)
| LogMissingKey (keyID serverName : string).

(** One entry per effect, in program order (oldest first). *)
Inductive Event :=
| EvNow (t : Time)
| EvDatabaseFetch (ctx : Context) (requests : Requests)
                  (answer : Results * option error)
| EvFetch (fetcher_name : string) (ctx : Context) (requests : Requests)
          (answer : Results * option error)
| EvStore (ctx : Context) (batch : Results) (answer : option error)
| EvLog (entry : LogEntry).

Record State := {
  requests : Requests;
  results : Results;
  world : W;
  trace : list Event
}.

Abbreviation M := (StateM State).

Definition emit (ev : Event) : M unit :=
  fun st => (tt, {| requests := requests st; results := results st;
                    world := world st; trace := trace st ++ [ev] |}).

Definition log (entry : LogEntry) : M unit := emit (EvLog entry).

Definition getRequests : M Requests := fun st => (requests st, st).

Definition getResults : M Results := fun st => (results st, st).

(** [delete(requests, req)]. *)
Definition deleteRequest (req : PublicKeyLookupRequest) : M unit :=
  fun st => (tt, {| requests := delete req (requests st); results := results st;
                    world := world st; trace := trace st |}).

(** [results[req] = res]. *)
Definition setResult (req : PublicKeyLookupRequest) (res : PublicKeyLookupResult)
  : M unit :=
  fun st => (tt, {| requests := requests st; results := <[req := res]> (results st);
                    world := world st; trace := trace st |}).

(** [results := map[...]...{}]. *)
Definition newResults : M unit :=
  fun st => (tt, {| requests := requests st; results := ∅;
                    world := world st; trace := trace st |}).

Definition setWorld (w : W) : M unit :=
  fun st => (tt, {| requests := requests st; results := results st;
                    world := w; trace := trace st |}).

Definition getWorld : M W := fun st => (world st, st).

Definition timeNow : M Time :=
  let* w := getWorld in
  let '(t, w') := time_Now w in
  let* _ := setWorld w' in
  let* _ := emit (EvNow t) in
  ret t.

(** [s.OurKeyRing.KeyDatabase.FetchKeys(ctx, requests)]. *)
Definition databaseFetchKeys (s : ServerKeyAPI) (ctx : Context)
  : M (Results * option error) :=
  let* reqs := getRequests in
  let* w := getWorld in
  let '(answer, w') :=
    FetchKeys_of (toKeyFetcher (KeyDatabase_of (OurKeyRing s))) ctx reqs w in
  let* _ := setWorld w' in
  let* _ := emit (EvDatabaseFetch ctx reqs answer) in
  ret answer.

(** [fetcher.FetchKeys(fetcherCtx, requests)]. *)
Definition fetcherFetchKeys (fetcher : KeyFetcher) (ctx : Context)
  : M (Results * option error) :=
  let* reqs := getRequests in
  let* w := getWorld in
  let '(answer, w') := FetchKeys_of fetcher ctx reqs w in
  let* _ := setWorld w' in
  let* _ := emit (EvFetch (FetcherName fetcher) ctx reqs answer) in
  ret answer.

(** [s.OurKeyRing.KeyDatabase.StoreKeys(ctx, batch)]. *)
Definition databaseStoreKeys (s : ServerKeyAPI) (ctx : Context) (batch : Results)
  : M (option error) :=
  let* w := getWorld in
  let '(answer, w') := StoreKeys_of (KeyDatabase_of (OurKeyRing s)) ctx batch w in
  let* _ := setWorld w' in
  let* _ := emit (EvStore ctx batch answer) in
  ret answer.

(** The body of the loop of [handleLocalKeys]. *)
Definition handleLocalKey (s : ServerKeyAPI) (req : PublicKeyLookupRequest)
  : M unit :=
  if decide (gomatrixserverlib.ServerName req = ServerName s) then
    let* _ := deleteRequest req in
    let* t := timeNow in
    setResult req
      {| toVerifyKey := {| Key := ServerPublicKey s |};
         ExpiredTS := PublicKeyNotExpired;
         ValidUntilTS := AsTimestamp (time_Add t (ServerKeyValidity s)) |}
  else ret tt.

Definition handleLocalKeys (s : ServerKeyAPI) (_ : Context) : M unit :=
  let* reqs := getRequests in
  forEach (map_to_list reqs).*1 (handleLocalKey s).

(** The body of the loop of [handleDatabaseKeys]. *)
Definition handleDatabaseKey (now : Timestamp)
    (entry : PublicKeyLookupRequest * PublicKeyLookupResult) : M unit :=
  let '(req, res) := entry in
  let* _ := setResult req res in
  if WasValidAt res now true then deleteRequest req else ret tt.

Definition handleDatabaseKeys (s : ServerKeyAPI) (ctx : Context) (now : Timestamp)
  : M (option error) :=
  let* (dbResults, err) := databaseFetchKeys s ctx in
  match err with
  | Some e => ret (Some e)
  | None =>
      let* _ := forEach (map_to_list dbResults) (handleDatabaseKey now) in
      ret None
  end.

(** The body of the loop of [handleFetcherKeys]; [storeResults] is the
    local map the loop fills. *)
Definition handleFetcherKey (s : ServerKeyAPI) (now : Timestamp)
    (storeResults : Results)
    (entry : PublicKeyLookupRequest * PublicKeyLookupResult) : M Results :=
  let '(req, res) := entry in
  let* results := getResults in
  let storeResults :=
    match results !! req with
    | Some prev =>
        if decide (ValidUntilTS prev < ValidUntilTS res)%Z then
          if decide (gomatrixserverlib.ServerName req ≠ ServerName s)
          then <[req := res]> storeResults else storeResults
        else storeResults
    | None =>
        if decide (gomatrixserverlib.ServerName req ≠ ServerName s)
        then <[req := res]> storeResults else storeResults
    end in
  let* _ := setResult req res in
  let* _ := if WasValidAt res now true then deleteRequest req else ret tt in
  ret storeResults.

Fixpoint handleFetcherKeysLoop (s : ServerKeyAPI) (now : Timestamp)
    (l : list (PublicKeyLookupRequest * PublicKeyLookupResult))
    (storeResults : Results) : M Results :=
  match l with
  | [] => ret storeResults
  | entry :: l' =>
      let* storeResults := handleFetcherKey s now storeResults entry in
      handleFetcherKeysLoop s now l' storeResults
  end.

Definition handleFetcherKeys (s : ServerKeyAPI) (ctx : Context) (now : Timestamp)
    (fetcher : KeyFetcher) : M (option error) :=
  let* reqs := getRequests in
  let* _ := log (LogFetching (FetcherName fetcher) (size reqs)) in
  let fetcherCtx := WithTimeout ctx (Second * 30)%Z in
  let* (fetcherResults, err) := fetcherFetchKeys fetcher fetcherCtx in
  match err with
  | Some e => ret (Some e)
  | None =>
      let* storeResults :=
        handleFetcherKeysLoop s now (map_to_list fetcherResults) ∅ in
      let* err := databaseStoreKeys s ctx storeResults in
      match err with
      | Some e =>
          let* _ := log (LogFailedToStore e (FetcherName fetcher)
                      (FetcherName (toKeyFetcher (KeyDatabase_of (OurKeyRing s))))) in
          ret (Some (StoreKeysFailed e))
      | None =>
          let* results := getResults in
          let* _ := if decide (0 < size storeResults)
                    then log (LogUpdated (FetcherName fetcher)
                                (size storeResults) (size results))
                    else ret tt in
          ret None
      end
  end.

(** The loop over [s.OurKeyRing.KeyFetchers] in [FetchKeys]. *)
Fixpoint fetcherLoop (s : ServerKeyAPI) (ctx : Context) (now : Timestamp)
    (fetchers : list KeyFetcher) : M unit :=
  match fetchers with
  | [] => ret tt
  | fetcher :: rest =>
      let* reqs := getRequests in
      if decide (size reqs = 0) then ret tt
      else
        let* err := handleFetcherKeys s ctx now fetcher in
        match err with
        | Some e =>
            let* reqs := getRequests in
            let* _ := log (LogFailedToRetrieve e (FetcherName fetcher) (size reqs)) in
            fetcherLoop s ctx now rest
        | None => fetcherLoop s ctx now rest
        end
  end.

(** The final loop of [FetchKeys]: the first request of [origRequests]
    that [results] has nothing for. *)
Fixpoint firstUnsatisfied (l : list PublicKeyLookupRequest) (results : Results)
  : option PublicKeyLookupRequest :=
  match l with
  | [] => None
  | req :: l' =>
      match results !! req with
      | None => Some req
      | Some _ => firstUnsatisfied l' results
      end
  end.

(** [FetchKeys]; the first argument is the caller's context, which the
    source binds to [_].  A [nil] result map is [None]. *)
Definition FetchKeys (s : ServerKeyAPI) (_ : Context)
  : M (option Results * option error) :=
  let ctx := Background in
  let* t := timeNow in
  let now := AsTimestamp t in
  let* _ := newResults in
  let* origRequests := getRequests in
  let* _ := handleLocalKeys s ctx in
  let* err := handleDatabaseKeys s ctx now in
  match err with
  | Some e => ret (None, Some e)
  | None =>
      let* _ := fetcherLoop s ctx now (KeyFetchers (OurKeyRing s)) in
      let* results := getResults in
      match firstUnsatisfied (map_to_list origRequests).*1 results with
      | Some req =>
          let* _ := log (LogMissingKey (gomatrixserverlib.KeyID req)
                           (gomatrixserverlib.ServerName req)) in
          ret (Some results,
               Some (RequestUnsatisfied (gomatrixserverlib.ServerName req)
                       (gomatrixserverlib.KeyID req)))
      | None => ret (Some results, None)
      end
  end.

(** [StoreKeys]: the caller's context is bound to [_]. *)
Definition StoreKeys (s : ServerKeyAPI) (_ : Context) (batch : Results)
  : M (option error) :=
  let ctx := Background in
  databaseStoreKeys s ctx batch.

(** A call of [FetchKeys] from outside: the caller's map, a world, and an
    empty trace. *)
Definition call (s : ServerKeyAPI) (callerCtx : Context) (reqs : Requests) (w : W)
  : (option Results * option error) * State :=
  FetchKeys s callerCtx
    {| requests := reqs; results := ∅; world := w; trace := [] |}.

End Model.

End ServerKeyAPI.

(** ** syncapi/consumers/keychange.go *)

Module sarama.

(** [sarama.ConsumerMessage]: the fields the consumer reads. *)
Record ConsumerMessage := {
  Value : list Byte.byte;
  Partition : Z;
  Offset : Z
}.

End sarama.

Module types.

Record LogPosition := {
  Partition : Z;
  Offset : Z
}.

(** [types.StreamingToken]: the consumer sets [DeviceListPosition] and
    leaves every other field at its zero value. *)
Record StreamingToken := { DeviceListPosition : LogPosition }.

End types.

Module api.

(** [api.DeviceMessage]: the consumer reads [UserID] only. *)
Record DeviceMessage := {
  UserID : string;
  DeviceID : string;
  StreamID : Z
}.

End api.

Module internal.

(** The element of the slice that [ContinualConsumer.StartOffsets] returns:
    the consumer reads [Partition] and [Offset]. *)
Record PartitionOffset := {
  Partition : Z;
  Offset : Z
}.

End internal.

Module KeyChange.

Section Model.

(** The world outside the consumer: the room server. *)
Variable W : Type.

(** [json.Unmarshal(msg.Value, &output)]: the decoded message and the
    error. *)
Variable Unmarshal : list Byte.byte -> api.DeviceMessage * option error.

(** [s.rsAPI.QuerySharedUsers(ctx, &QuerySharedUsersRequest{UserID}, &queryRes)]:
    the [UserIDsToCount] of the response and the error. *)
Variable QuerySharedUsers :
  Context -> string -> W -> (gmap string Z * option error) * W.

(** [s.keyChangeConsumer.StartOffsets()]: the stored offsets and the
    error. *)
Variable StartOffsets : W -> (list internal.PartitionOffset * option error) * W.

Inductive LogEntry :=
| LogUnmarshalFailed (err : error)
| LogQuerySharedUsersFailed (err : error).

Inductive Event :=
| EvQuerySharedUsers (ctx : Context) (userID : string)
                     (answer : gmap string Z * option error)
| EvOnNewKeyChange (posUpdate : types.StreamingToken)
                   (wakeUserID keyChangeUserID : string)
| EvLog (entry : LogEntry).

(** The mutable part of [OutputKeyChangeEventConsumer] and what it talks
    to.  Calls are modelled one at a time, so [partitionToOffsetMu] has no
    counterpart. *)
Record State := {
  partitionToOffset : gmap Z Z;
  world : W;
  trace : list Event
}.

Abbreviation M := (StateM State).

Definition emit (ev : Event) : M unit :=
  fun st => (tt, {| partitionToOffset := partitionToOffset st;
                    world := world st; trace := trace st ++ [ev] |}).

Definition log (entry : LogEntry) : M unit := emit (EvLog entry).

Definition querySharedUsers (ctx : Context) (userID : string)
  : M (gmap string Z * option error) :=
  fun st =>
    let '(answer, w') := QuerySharedUsers ctx userID (world st) in
    (answer, {| partitionToOffset := partitionToOffset st; world := w';
                trace := trace st ++ [EvQuerySharedUsers ctx userID answer] |}).

(** [s.notifier.OnNewKeyChange(posUpdate, userID, output.UserID)]. *)
Definition OnNewKeyChange (posUpdate : types.StreamingToken)
    (wakeUserID keyChangeUserID : string) : M unit :=
  emit (EvOnNewKeyChange posUpdate wakeUserID keyChangeUserID).

Definition startOffsets : M (list internal.PartitionOffset * option error) :=
  fun st =>
    let '(answer, w') := StartOffsets (world st) in
    (answer, {| partitionToOffset := partitionToOffset st; world := w';
                trace := trace st |}).

(** [s.partitionToOffset[partition] = offset]. *)
Definition setOffset (partition offset : Z) : M unit :=
  fun st => (tt, {| partitionToOffset := <[partition := offset]> (partitionToOffset st);
                    world := world st; trace := trace st |}).

(** [Start]: the offsets are recorded before the error is looked at. *)
Definition Start : M (option error) :=
  let* (offsets, err) := startOffsets in
  let* _ :=
    forEach offsets
      (fun o => setOffset (internal.Partition o) (internal.Offset o)) in
  ret err.

Definition updateOffset (msg : sarama.ConsumerMessage) : M unit :=
  fun st => (tt, {| partitionToOffset :=
                      <[sarama.Partition msg := sarama.Offset msg]>
                        (partitionToOffset st);
                    world := world st; trace := trace st |}).

(** The body of [onMessage], without the deferred call. *)
Definition onMessageBody (msg : sarama.ConsumerMessage) : M (option error) :=
  let '(output, err) := Unmarshal (sarama.Value msg) in
  match err with
  | Some e =>
      let* _ := log (LogUnmarshalFailed e) in
      ret (Some e)
  | None =>
      let* (UserIDsToCount, err) :=
        querySharedUsers Background (api.UserID output) in
      match err with
      | Some e =>
          let* _ := log (LogQuerySharedUsersFailed e) in
          ret (Some e)
      | None =>
          let UserIDsToCount := <[api.UserID output := 1%Z]> UserIDsToCount in
          let posUpdate :=
            {| types.DeviceListPosition :=
                 {| types.Offset := sarama.Offset msg;
                    types.Partition := sarama.Partition msg |} |} in
          let* _ :=
            forEach (map_to_list UserIDsToCount).*1
              (fun userID => OnNewKeyChange posUpdate userID (api.UserID output)) in
          ret None
      end
  end.

(** [onMessage]: [defer s.updateOffset(msg)] runs when the body returns,
    whichever [return] it takes. *)
Definition onMessage (msg : sarama.ConsumerMessage) : M (option error) :=
  let* err := onMessageBody msg in
  let* _ := updateOffset msg in
  ret err.

End Model.

(** ** Reading a run of the consumer *)

Section Runs.

Variable W : Type.
Variable Unmarshal : list Byte.byte -> api.DeviceMessage * option error.
Variable QuerySharedUsers :
  Context -> string -> W -> (gmap string Z * option error) * W.

(** [onMessage] called for one message after the other. *)
Definition consume (msgs : list sarama.ConsumerMessage) (st : State W) : State W :=
  foldl (fun st msg => (onMessage W Unmarshal QuerySharedUsers msg st).2) st msgs.

(** Assignments [partitionToOffset[p] = o], one after the other. *)
Definition recorded (l : list (Z * Z)) (m : gmap Z Z) : gmap Z Z :=
  foldl (fun m entry => <[entry.1 := entry.2]> m) m l.

Definition notification (ev : Event) : Prop :=
  match ev with
  | EvOnNewKeyChange _ _ _ => True
  | _ => False
  end.

End Runs.

End KeyChange.

(** ** Concrete collaborators

  A runtime, a clock, databases and fetchers on which the model runs. *)

Module Scenario.

Import ServerKeyAPI.

#[local] Open Scope Z_scope.

(** Times are nanoseconds since the epoch; a key that carries an expiry was
    valid before it, any other key is valid up to its [ValidUntilTS]. *)
#[local] Instance runtime : Runtime := {|
  Time := Z;
  time_Add := Z.add;
  AsTimestamp := fun t => (t `div` 1000000)%Z;
  PublicKeyNotExpired := 0%Z;
  WasValidAt := fun res atTs strict =>
    if decide (ExpiredTS res = 0%Z)
    then if strict then bool_decide (atTs ≤ ValidUntilTS res)%Z else true
    else bool_decide (atTs < ExpiredTS res)%Z
|}.

(** The world is the clock; every reading advances it by a millisecond. *)
Definition tick (w : Z) : Time * Z := (w, (w + 1000000)%Z).

(** One second after the epoch: [now] is 1000. *)
Definition startOfTime : Z := 1000000000%Z.

Definition reqSelf : PublicKeyLookupRequest :=
  {| gomatrixserverlib.ServerName := "self"; KeyID := "ed25519:s" |}.

Definition reqPeer : PublicKeyLookupRequest :=
  {| gomatrixserverlib.ServerName := "peer"; KeyID := "ed25519:p" |}.

Definition keyValidUntil (ts : Timestamp) : PublicKeyLookupResult :=
  {| toVerifyKey := {| Key := [] |}; ExpiredTS := 0%Z; ValidUntilTS := ts |}.

(** A fetcher that answers every call with the same map. *)
Definition answering (name : string) (answer : Results) : KeyFetcher Z :=
  {| FetcherName := name;
     FetchKeys_of := fun _ _ w => ((answer, None), w) |}.

(** A fetcher that fails every call. *)
Definition failing (name : string) : KeyFetcher Z :=
  {| FetcherName := name;
     FetchKeys_of := fun _ _ w => ((∅, Some (ExternalError "unreachable")), w) |}.

(** A fetcher that answers exactly what it is asked, with one result. *)
Definition obliging (name : string) (res : PublicKeyLookupResult) : KeyFetcher Z :=
  {| FetcherName := name;
     FetchKeys_of := fun _ reqs w => (((fun _ => res) <$> reqs, None), w) |}.

(** Databases: one that knows nothing and stores, one whose store fails,
    one whose fetch fails. *)
Definition emptyDatabase : KeyDatabase Z :=
  {| toKeyFetcher := answering "db" ∅;
     StoreKeys_of := fun _ _ w => (None, w) |}.

Definition readOnlyDatabase : KeyDatabase Z :=
  {| toKeyFetcher := answering "db" ∅;
     StoreKeys_of := fun _ _ w => (Some (ExternalError "read-only"), w) |}.

Definition brokenDatabase : KeyDatabase Z :=
  {| toKeyFetcher := failing "db";
     StoreKeys_of := fun _ _ w => (None, w) |}.

Definition server (db : KeyDatabase Z) (fetchers : list (KeyFetcher Z))
  : ServerKeyAPI Z :=
  {| ServerName := "self";
     ServerPublicKey := [];
     ServerKeyID := "ed25519:s";
     ServerKeyValidity := 3600000000000%Z;
     OurKeyRing := {| KeyFetchers := fetchers; KeyDatabase_of := db |} |}.

Definition callerCtx : Context := WithTimeout Background (Second * 5)%Z.

Definition run (db : KeyDatabase Z) (fetchers : list (KeyFetcher Z))
    (reqs : Requests) :=
  call Z tick (server db fetchers) callerCtx reqs startOfTime.

(** Two fetchers answer for the same request, first with [validUntil = 200],
    then with [validUntil = 150]; both are stale at [now = 1000]. *)
Definition staleThenStaler :=
  run emptyDatabase
    [answering "first" {[ reqPeer := keyValidUntil 200 ]};
     answering "second" {[ reqPeer := keyValidUntil 150 ]}]
    {[ reqPeer := 0%Z ]}.

(** The store after the first fetcher fails; a second fetcher is
    configured. *)
Definition storeFails :=
  run readOnlyDatabase
    [answering "first" {[ reqPeer := keyValidUntil 200 ]};
     answering "second" {[ reqPeer := keyValidUntil 5000 ]}]
    {[ reqPeer := 0%Z ]}.

(** The database fetch fails for a batch with a request for our own key. *)
Definition databaseFails :=
  run brokenDatabase [answering "first" {[ reqPeer := keyValidUntil 5000 ]}]
    {[ reqSelf := 0%Z; reqPeer := 0%Z ]}.

(** A key that is not ours and that has expired. *)
Definition strangerKey : PublicKeyLookupResult :=
  {| toVerifyKey := {| Key := [Byte.x2a] |}; ExpiredTS := 500; ValidUntilTS := 150 |}.

(** A fetcher answers with an entry for our own key next to the one it was
    asked for. *)
Definition fetcherAnswersForSelf :=
  run emptyDatabase
    [answering "first" {[ reqSelf := strangerKey;
                          reqPeer := keyValidUntil 5000 ]}]
    {[ reqSelf := 0%Z; reqPeer := 0%Z ]}.

(** A batch with our own key and a peer's key, an empty database and no
    fetcher. *)
Definition nobodyKnowsPeer :=
  run emptyDatabase [] {[ reqSelf := 0%Z; reqPeer := 0%Z ]}.

(** A fetcher answers what it is asked with a key that is valid now. *)
Definition fetcherObliges :=
  run emptyDatabase [obliging "first" (keyValidUntil 5000)]
    {[ reqSelf := 0%Z; reqPeer := 0%Z ]}.

(** A database that holds a key for the peer: one that is valid now, or
    one that is not. *)
Definition warmDatabase : KeyDatabase Z :=
  {| toKeyFetcher := answering "db" {[ reqPeer := keyValidUntil 5000 ]};
     StoreKeys_of := fun _ _ w => (None, w) |}.

Definition staleDatabase : KeyDatabase Z :=
  {| toKeyFetcher := answering "db" {[ reqPeer := keyValidUntil 200 ]};
     StoreKeys_of := fun _ _ w => (None, w) |}.

(** The database holds a valid key for the peer; a fetcher is configured. *)
Definition warmCache :=
  run warmDatabase [failing "first"] {[ reqSelf := 0%Z; reqPeer := 0%Z ]}.

(** The database holds a key for the peer that is no longer valid. *)
Definition staleCache :=
  run staleDatabase [obliging "first" (keyValidUntil 5000)] {[ reqPeer := 0%Z ]}.

(** A state in the middle of a call: the peer's key is outstanding and
    [results] holds an entry for it with [validUntil = 200]. *)
Definition holding200 : State Z :=
  {| requests := {[ reqPeer := 0 ]};
     results := {[ reqPeer := keyValidUntil 200 ]};
     world := startOfTime;
     trace := [] |}.

(** A state in the middle of a call: the peer's key is outstanding and
    nothing is known about it. *)
Definition holdingNothing : State Z :=
  {| requests := {[ reqPeer := 0 ]};
     results := ∅;
     world := startOfTime;
     trace := [] |}.

(** What to read off a trace: the fetchers consulted and the stores
    issued, in order, and the contexts the collaborators were called on. *)
Inductive Step :=
| Fetched (fetcher_name : string)
          (answer : list (PublicKeyLookupRequest * PublicKeyLookupResult))
| Stored (batch : list (PublicKeyLookupRequest * PublicKeyLookupResult))
         (answer : option error).

Definition steps (evs : list Event) : list Step :=
  omap (fun ev => match ev with
                  | EvFetch name _ _ (answer, _) => Some (Fetched name (map_to_list answer))
                  | EvStore _ batch answer => Some (Stored (map_to_list batch) answer)
                  | _ => None
                  end) evs.

Definition contexts (evs : list Event) : list Context :=
  omap (fun ev => match ev with
                  | EvDatabaseFetch c _ _ => Some c
                  | EvFetch _ c _ _ => Some c
                  | EvStore c _ _ => Some c
                  | _ => None
                  end) evs.

(** The key-change consumer: a message carries the changed user's
    identifier as its value, and an empty value does not decode; the room
    server knows one user who shares a room, or fails. *)
Definition decode (value : list Byte.byte) : api.DeviceMessage * option error :=
  match value with
  | [] => ({| api.UserID := ""; api.DeviceID := ""; api.StreamID := 0 |},
           Some (ExternalError "unexpected end of JSON input"))
  | _ => ({| api.UserID := String.string_of_list_byte value;
             api.DeviceID := ""; api.StreamID := 0 |}, None)
  end.

Definition sharedWithBob (_ : Context) (_ : string) (w : unit)
  : (gmap string Z * option error) * unit :=
  (({[ "bob" := 2 ]}, None), w).

Definition roomServerDown (_ : Context) (_ : string) (w : unit)
  : (gmap string Z * option error) * unit :=
  ((∅, Some (ExternalError "unreachable")), w).

Definition aliceChanged : sarama.ConsumerMessage :=
  {| sarama.Value := String.list_byte_of_string "alice";
     sarama.Partition := 3; sarama.Offset := 42 |}.

Definition consumerAtStart : KeyChange.State unit :=
  {| KeyChange.partitionToOffset := {[ 3 := 41 ]};
     KeyChange.world := tt;
     KeyChange.trace := [] |}.

(** A message that does not decode, on the partition of [aliceChanged]. *)
Definition undecodable : sarama.ConsumerMessage :=
  {| sarama.Value := []; sarama.Partition := 3; sarama.Offset := 43 |}.

(** The partition store returns offsets, two of them for partition 3, and
    an error. *)
Definition storedOffsets (w : unit)
  : (list internal.PartitionOffset * option error) * unit :=
  (([ {| internal.Partition := 3; internal.Offset := 41 |};
      {| internal.Partition := 5; internal.Offset := 7 |};
      {| internal.Partition := 3; internal.Offset := 40 |} ],
    Some (ExternalError "connection lost")), w).

End Scenario.


(** * Properties of the key resolver *)

Section ResolverFacts.

Import ServerKeyAPI.

Context {rt : Runtime}.
Variable W : Type.
Variable time_Now : W -> Time * W.
Variable s : ServerKeyAPI W.

Abbreviation State := (State W).
Abbreviation Event := (@Event rt).
Abbreviation database := (KeyDatabase_of W (OurKeyRing W s)).
Abbreviation fetchers := (KeyFetchers W (OurKeyRing W s)).

Implicit Types (st : State) (req : PublicKeyLookupRequest)
  (res : PublicKeyLookupResult) (now : Timestamp) (ctx : Context).

(** ** The stages of a call

    The states a call of [FetchKeys] goes through, the answers of the
    collaborators in them, and the vocabulary of the properties below. *)

(** A request for one of our own keys. *)
Definition isSelf (req : PublicKeyLookupRequest) : Prop :=
  gomatrixserverlib.ServerName req = ServerName W s.

(** The value [handleLocalKeys] stores for a request it handles when the
    clock reads [t]. *)
Definition selfKeyResult (t : Time) : PublicKeyLookupResult :=
  {| toVerifyKey := {| Key := ServerPublicKey W s |};
     ExpiredTS := PublicKeyNotExpired;
     ValidUntilTS := AsTimestamp (time_Add t (ServerKeyValidity W s)) |}.

(** ** Merging a batch of answers

    [handleDatabaseKeys] and [handleFetcherKeys] treat [requests] and
    [results] alike: every entry of the answer is written to [results], and
    its request leaves [requests] when the key is valid now. *)

Definition mergeEntry now (entry : PublicKeyLookupRequest * PublicKeyLookupResult)
    st : State :=
  {| requests := if WasValidAt entry.2 now true
                 then delete entry.1 (requests W st) else requests W st;
     results := <[entry.1 := entry.2]> (results W st);
     world := world W st;
     trace := trace W st |}.

Definition merged now (l : list (PublicKeyLookupRequest * PublicKeyLookupResult))
    st : State :=
  foldl (fun st entry => mergeEntry now entry st) st l.

(** What [handleFetcherKeys] stages for the database: a result for a foreign
    key that is the first one known or that outlives the one known. *)
Definition fresher (prev : option PublicKeyLookupResult) res : Prop :=
  match prev with
  | Some prev => (ValidUntilTS prev < ValidUntilTS res)%Z
  | None => True
  end.

#[local] Instance fresher_dec prev res : Decision (fresher prev res).
Proof. destruct prev; simpl; apply _. Defined.

#[local] Instance isSelf_dec req : Decision (isSelf req).
Proof. unfold isSelf. apply _. Defined.

Definition staged (known : Results)
    (entry : PublicKeyLookupRequest * PublicKeyLookupResult) : Prop :=
  ¬ isSelf entry.1 ∧ fresher (known !! entry.1) entry.2.

#[local] Instance staged_dec known entry : Decision (staged known entry).
Proof. unfold staged. apply _. Defined.

(** The store batch of a fetcher stage that starts with [known] and
    receives [answer]. *)
Definition storeBatch (known answer : Results) : Results :=
  filter (staged known) answer.

(** The answer of the database to the fetch that [handleDatabaseKeys]
    issues in state [st]. *)
Definition databaseAnswer ctx st : (Results * option error) * W :=
  FetchKeys_of W (toKeyFetcher W database) ctx (requests W st) (world W st).

(** The state once the database has answered. *)
Definition databaseAsked ctx st : State :=
  {| requests := requests W st; results := results W st;
     world := (databaseAnswer ctx st).2;
     trace := trace W st
              ++ [EvDatabaseFetch ctx (requests W st) (databaseAnswer ctx st).1] |}.

Definition fetcherCtx ctx : Context := WithTimeout ctx (Second * 30)%Z.

(** The answer of [fetcher] to the fetch that [handleFetcherKeys] issues in
    state [st]. *)
Definition fetcherAnswer ctx (fetcher : KeyFetcher W) st
  : (Results * option error) * W :=
  FetchKeys_of W fetcher (fetcherCtx ctx) (requests W st) (world W st).

Definition fetcherAsked ctx (fetcher : KeyFetcher W) st : State :=
  {| requests := requests W st; results := results W st;
     world := (fetcherAnswer ctx fetcher st).2;
     trace := trace W st
              ++ [EvLog (LogFetching (FetcherName W fetcher) (size (requests W st)));
                  EvFetch (FetcherName W fetcher) (fetcherCtx ctx) (requests W st)
                    (fetcherAnswer ctx fetcher st).1] |}.

(** The answer of the database to the store that ends the stage. *)
Definition storeAnswer ctx (fetcher : KeyFetcher W) st : option error * W :=
  StoreKeys_of W database ctx
    (storeBatch (results W st) (fetcherAnswer ctx fetcher st).1.1)
    (fetcherAnswer ctx fetcher st).2.

(** The log entry that follows the store. *)
Definition storeLog ctx (fetcher : KeyFetcher W) st (merged_results : Results)
  : list Event :=
  match (storeAnswer ctx fetcher st).1 with
  | Some e =>
      [EvLog (LogFailedToStore e (FetcherName W fetcher)
                (FetcherName W (toKeyFetcher W database)))]
  | None =>
      let batch := storeBatch (results W st) (fetcherAnswer ctx fetcher st).1.1 in
      if decide (0 < size batch)
      then [EvLog (LogUpdated (FetcherName W fetcher) (size batch)
                     (size merged_results))]
      else []
  end.

(** The state after a stage whose fetch succeeded. *)
Definition fetcherMerged ctx now (fetcher : KeyFetcher W) st : State :=
  let st1 := merged now (map_to_list (fetcherAnswer ctx fetcher st).1.1)
               (fetcherAsked ctx fetcher st) in
  {| requests := requests W st1; results := results W st1;
     world := (storeAnswer ctx fetcher st).2;
     trace := trace W (fetcherAsked ctx fetcher st)
              ++ EvStore ctx
                   (storeBatch (results W st) (fetcherAnswer ctx fetcher st).1.1)
                   (storeAnswer ctx fetcher st).1
                 :: storeLog ctx fetcher st (results W st1) |}.

(** The events a fetcher stage adds while at most [pending] is
    outstanding. *)
Definition stageEvent ctx (pending : Requests) (ev : Event) : Prop :=
  match ev with
  | EvNow _ => False
  | EvDatabaseFetch _ _ _ => False
  | EvFetch _ c asked _ => c = fetcherCtx ctx ∧ asked ⊆ pending
  | EvStore c batch _ => c = ctx ∧ ∀ req, isSelf req -> batch !! req = None
  | EvLog _ => True
  end.

(** [ev] is a successful fetch whose answer has an entry for [req]. *)
Definition answersFor req (ev : Event) : Prop :=
  match ev with
  | EvDatabaseFetch _ _ (answer, None) => is_Some (answer !! req)
  | EvFetch _ _ _ (answer, None) => is_Some (answer !! req)
  | _ => False
  end.

(** How the state moves through fetcher stages: [requests] shrinks, the
    trace grows by stage events, and an entry of [results] changes only when
    an answer has it. *)
Record cascades ctx st st' : Prop := {
  cascades_requests : requests W st' ⊆ requests W st;
  cascades_trace :
    ∃ evs, trace W st' = trace W st ++ evs ∧
           Forall (stageEvent ctx (requests W st)) evs ∧
           ∀ req,
             (results W st' !! req = results W st !! req ∨
              Exists (answersFor req) evs) ∧
             (is_Some (results W st !! req) ∨ Exists (answersFor req) evs ->
              is_Some (results W st' !! req))
}.

(** [now]: the reading of the clock on entry. *)
Definition nowOf (w : W) : Timestamp := AsTimestamp (time_Now w).1.

(** The state when [handleLocalKeys] is called. *)
Definition entered (reqs : Requests) (w : W) : State :=
  {| requests := reqs; results := ∅; world := (time_Now w).2;
     trace := [EvNow (time_Now w).1] |}.

(** The state when [handleLocalKeys] has returned. *)
Definition afterLocalKeys (reqs : Requests) (w : W) : State :=
  (handleLocalKeys W time_Now s Background (entered reqs w)).2.

(** The state when [handleDatabaseKeys] has returned without error. *)
Definition afterDatabaseKeys (reqs : Requests) (w : W) : State :=
  merged (nowOf w)
    (map_to_list (databaseAnswer Background (afterLocalKeys reqs w)).1.1)
    (databaseAsked Background (afterLocalKeys reqs w)).

(** The state when the loop over the fetchers is left. *)
Definition afterFetchers (reqs : Requests) (w : W) : State :=
  (fetcherLoop W s Background (nowOf w) fetchers (afterDatabaseKeys reqs w)).2.

(** What every event of a call looks like. *)
Definition callEvent (ev : Event) : Prop :=
  match ev with
  | EvNow _ => True
  | EvDatabaseFetch c asked _ =>
      c = Background ∧ ∀ req, isSelf req -> asked !! req = None
  | EvFetch _ c asked _ =>
      c = fetcherCtx Background ∧ ∀ req, isSelf req -> asked !! req = None
  | EvStore c batch _ =>
      c = Background ∧ ∀ req, isSelf req -> batch !! req = None
  | EvLog _ => True
  end.

(** An event that consults a fetcher or writes to the database. *)
Definition fetchOrStore (ev : Event) : Prop :=
  match ev with
  | EvFetch _ _ _ _ => True
  | EvStore _ _ _ => True
  | _ => False
  end.

(** A fetch, of the database or of a fetcher, that was not asked for [req]. *)
Definition notAskedFor req (ev : Event) : Prop :=
  match ev with
  | EvDatabaseFetch _ asked _ => asked !! req = None
  | EvFetch _ _ asked _ => asked !! req = None
  | _ => True
  end.

(** The context an event runs on is the one [FetchKeys] makes for it. *)
Definition runsDetached (ev : Event) : Prop :=
  match ev with
  | EvDatabaseFetch c _ _ => c = Background
  | EvFetch _ c _ _ => c = WithTimeout Background (Second * 30)%Z
  | EvStore c _ _ => c = Background
  | _ => True
  end.

(** ** The readings of the clock

    A call reads the clock on entry, for [now], and then once for every
    request for one of our own keys, when [handleLocalKeys] handles it. *)

(** The world after [n] readings of the clock. *)
Fixpoint clockAfter (n : nat) (w : W) : W :=
  match n with
  | O => w
  | S n => clockAfter n (time_Now w).2
  end.

(** What the clock reads after [n] earlier readings: [reading 0 w] is the
    reading that [now] is made of. *)
Definition reading (n : nat) (w : W) : Time := (time_Now (clockAfter n w)).1.

(** The requests of a batch for our own keys, in the order in which
    [handleLocalKeys] comes to them. *)
Definition ownRequests (reqs : Requests) : list PublicKeyLookupRequest :=
  filter isSelf (map_to_list reqs).*1.

(** ** Reading a trace, and what is known of a request *)

(** The fetchers consulted, by name, oldest first. *)
Definition consulted (evs : list Event) : list string :=
  omap (fun ev => match ev with
                  | EvFetch name _ _ _ => Some name
                  | _ => None
                  end) evs.

(** The batches the database was asked for, oldest first. *)
Definition databaseBatches (evs : list Event) : list Requests :=
  omap (fun ev => match ev with
                  | EvDatabaseFetch _ asked _ => Some asked
                  | _ => None
                  end) evs.

(** A fetcher is asked for something. *)
Definition asksNonEmpty (ev : Event) : Prop :=
  match ev with
  | EvFetch _ _ asked _ => asked ≠ ∅
  | _ => True
  end.

(** [ev] is a successful fetch whose answer has [res] for [req]. *)
Definition answersWith req res (ev : Event) : Prop :=
  match ev with
  | EvDatabaseFetch _ _ (answer, None) => answer !! req = Some res
  | EvFetch _ _ _ (answer, None) => answer !! req = Some res
  | _ => False
  end.

(** Nothing is known, or what is known is not valid at [now]. *)
Definition stale now (known : option PublicKeyLookupResult) : Prop :=
  match known with
  | Some res => WasValidAt res now true = false
  | None => True
  end.

(** A request is foreign when it is not for one of our own keys. *)
Definition foreign (entry : PublicKeyLookupRequest * Timestamp) : Prop :=
  ¬ isSelf entry.1.

#[local] Instance foreign_dec entry : Decision (foreign entry).
Proof. unfold foreign. apply _. Defined.

(** How [requests] and [results] move together through the stages that
    merge answers: an entry of [results] comes from before or from an answer,
    no entry is lost, a request that leaves [requests] has an entry, and a
    request that stays has none that is valid at [now]. *)
Record settles now st st' : Prop := {
  settles_source :
    ∃ evs, trace W st' = trace W st ++ evs ∧
           ∀ req res, results W st' !! req = Some res ->
                      results W st !! req = Some res ∨
                      Exists (answersWith req res) evs;
  settles_kept :
    ∀ req, is_Some (results W st !! req) -> is_Some (results W st' !! req);
  settles_removed :
    ∀ req, is_Some (requests W st !! req) -> requests W st' !! req = None ->
           is_Some (results W st' !! req);
  settles_pending :
    (∀ req, is_Some (requests W st !! req) -> stale now (results W st !! req)) ->
    ∀ req, is_Some (requests W st' !! req) -> stale now (results W st' !! req)
}.

(** ** Running the state-passing code *)

Lemma bind_run {S A B} (m : StateM S A) (k : A -> StateM S B) (st : S) :
  bind m k st = k (m st).1 (m st).2.
Proof. unfold bind. by destruct (m st). Qed.

Lemma forEach_nil {S A} (body : A -> StateM S unit) (st : S) :
  forEach [] body st = (tt, st).
Proof. done. Qed.

Lemma forEach_cons {S A} (x : A) (l : list A) (body : A -> StateM S unit) (st : S) :
  forEach (x :: l) body st = forEach l body (body x st).2.
Proof. simpl. by rewrite bind_run. Qed.

(** ** The self-key stage *)

Lemma timeNow_run st :
  timeNow W time_Now st =
    ((time_Now (world W st)).1,
     {| requests := requests W st; results := results W st;
        world := (time_Now (world W st)).2;
        trace := trace W st ++ [EvNow (time_Now (world W st)).1] |}).
Proof.
  unfold timeNow, bind, getWorld, setWorld, emit, ret.
  by destruct (time_Now (world W st)).
Qed.

Lemma handleLocalKey_run req st :
  handleLocalKey W time_Now s req st =
    (tt, if decide (isSelf req) then
           {| requests := delete req (requests W st);
              results := <[req := selfKeyResult (time_Now (world W st)).1]>
                           (results W st);
              world := (time_Now (world W st)).2;
              trace := trace W st ++ [EvNow (time_Now (world W st)).1] |}
         else st).
Proof.
  unfold handleLocalKey, isSelf. destruct (decide _); [|done].
  unfold bind, deleteRequest, setResult. by rewrite timeNow_run.
Qed.

Lemma handleLocalKeys_loop (l : list PublicKeyLookupRequest) st :
  let st' := (forEach l (handleLocalKey W time_Now s) st).2 in
  ∃ ts : list Time,
    trace W st' = trace W st ++ (EvNow <$> ts) ∧
    ∀ req,
      (isSelf req ∧ req ∈ l →
         requests W st' !! req = None ∧
         ∃ t, t ∈ ts ∧ results W st' !! req = Some (selfKeyResult t)) ∧
      (¬ (isSelf req ∧ req ∈ l) →
         requests W st' !! req = requests W st !! req ∧
         results W st' !! req = results W st !! req).
Proof.
  revert st. induction l as [|r l IH]; intros st; cbv zeta.
  - exists []. split; [by rewrite app_nil_r|].
    intros req. split; [intros [_ H]; by apply elem_of_nil in H|done].
  - rewrite forEach_cons, handleLocalKey_run. cbn [snd].
    destruct (decide (isSelf r)) as [Hself|Hnot].
    + match goal with |- context [forEach l _ ?x] => remember x as st1 eqn:E1 end.
      assert (requests W st1 = delete r (requests W st)) as Hq by (by subst).
      assert (results W st1
              = <[r := selfKeyResult (time_Now (world W st)).1]> (results W st))
        as Hr by (by subst).
      assert (trace W st1 = trace W st ++ [EvNow (time_Now (world W st)).1])
        as Ht by (by subst).
      clear E1. destruct (IH st1) as (ts & Htr & IH1).
      exists ((time_Now (world W st)).1 :: ts). split.
      { rewrite Htr, Ht. by rewrite <- app_assoc. }
      intros req. destruct (IH1 req) as [IHs IHn]. split.
      * intros [Hs Hin]. destruct (decide (req ∈ l)) as [Hl|Hl].
        -- destruct (IHs (conj Hs Hl)) as (? & t & ? & ?). split; [done|].
           exists t. split; [by right|done].
        -- assert (¬ (isSelf req ∧ req ∈ l)) as Hn by tauto.
           destruct (IHn Hn) as [Hrq Hrs].
           apply elem_of_cons in Hin as [->|?]; [|done].
           rewrite Hrq, Hrs, Hq, Hr, lookup_delete_eq, lookup_insert_eq.
           split; [done|]. eexists. split; [by left|done].
      * intros Hn.
        assert (¬ (isSelf req ∧ req ∈ l)) as Hn'.
        { intros [? ?]. apply Hn. split; [done|by right]. }
        destruct (IHn Hn') as [Hrq Hrs].
        assert (r ≠ req) as Hne.
        { intros ->. apply Hn. split; [done|by left]. }
        by rewrite Hrq, Hrs, Hq, Hr, lookup_delete_ne, lookup_insert_ne.
    + destruct (IH st) as (ts & Htr & IH1). exists ts. split; [done|].
      intros req. destruct (IH1 req) as [IHs IHn]. split.
      * intros [Hs Hin]. apply IHs. split; [done|].
        apply elem_of_cons in Hin as [->|?]; [by destruct Hnot|done].
      * intros Hn. apply IHn. intros [? ?]. apply Hn. split; [done|by right].
Qed.

Lemma handleDatabaseKey_run now entry st :
  handleDatabaseKey W now entry st = (tt, mergeEntry now entry st).
Proof.
  destruct entry as [req res]. unfold handleDatabaseKey, mergeEntry.
  rewrite bind_run. unfold setResult. cbn [fst snd].
  by destruct (WasValidAt res now true).
Qed.

Lemma handleDatabaseKeys_loop now l st :
  forEach l (handleDatabaseKey W now) st = (tt, merged now l st).
Proof.
  revert st. induction l as [|entry l IH]; intros st; [done|].
  by rewrite forEach_cons, handleDatabaseKey_run, IH.
Qed.

Lemma handleFetcherKey_run now (storeResults : Results) entry st :
  handleFetcherKey W s now storeResults entry st =
    (if decide (staged (results W st) entry)
     then <[entry.1 := entry.2]> storeResults else storeResults,
     mergeEntry now entry st).
Proof.
  destruct entry as [req res]. unfold handleFetcherKey, mergeEntry.
  rewrite !bind_run. unfold getResults, setResult. cbn [fst snd].
  assert (∀ (b : bool) (x : State),
            (if b then deleteRequest W req else ret tt) x
            = (tt, {| requests := if b then delete req (requests W x)
                                  else requests W x;
                      results := results W x; world := world W x;
                      trace := trace W x |})) as Hif.
  { intros [] []; done. }
  rewrite Hif. cbn [fst snd ret requests results world trace]. f_equal.
  destruct (decide (staged (results W st) (req, res))) as [Hst|Hst];
    unfold staged, fresher, isSelf in Hst; cbn [fst snd] in Hst;
    destruct (results W st !! req) as [prev|];
    repeat case_decide; try done; tauto.
Qed.

Lemma handleFetcherKeysLoop_state now l (storeResults : Results) st :
  (handleFetcherKeysLoop W s now l storeResults st).2 = merged now l st.
Proof.
  revert storeResults st. induction l as [|entry l IH]; intros sr st; [done|].
  simpl. by rewrite bind_run, handleFetcherKey_run, IH.
Qed.

Lemma merged_world now l st : world W (merged now l st) = world W st.
Proof. revert st. induction l as [|e l IH]; intros st; [done|]. simpl. by rewrite IH. Qed.

Lemma merged_trace now l st : trace W (merged now l st) = trace W st.
Proof. revert st. induction l as [|e l IH]; intros st; [done|]. simpl. by rewrite IH. Qed.

Lemma merged_results now l st req :
  NoDup l.*1 ->
  results W (merged now l st) !! req =
    match (list_to_map l : Results) !! req with
    | Some res => Some res
    | None => results W st !! req
    end.
Proof.
  revert st. induction l as [|[r res] l IH]; intros st Hnd; [done|].
  apply NoDup_cons in Hnd as [Hr Hnd]. simpl. rewrite IH by done.
  destruct (decide (r = req)) as [->|Hne].
  - rewrite lookup_insert_eq.
    rewrite (not_elem_of_list_to_map_1 _ _ Hr). simpl.
    by rewrite lookup_insert_eq.
  - rewrite lookup_insert_ne by done.
    destruct (list_to_map l !! req); [done|]. simpl.
    by rewrite lookup_insert_ne.
Qed.

Lemma merged_requests now l st req :
  NoDup l.*1 ->
  requests W (merged now l st) !! req =
    match (list_to_map l : Results) !! req with
    | Some res => if WasValidAt res now true then None else requests W st !! req
    | None => requests W st !! req
    end.
Proof.
  revert st. induction l as [|[r res] l IH]; intros st Hnd; [done|].
  apply NoDup_cons in Hnd as [Hr Hnd]. simpl. rewrite IH by done.
  destruct (decide (r = req)) as [->|Hne].
  - rewrite lookup_insert_eq.
    rewrite (not_elem_of_list_to_map_1 _ _ Hr). simpl.
    destruct (WasValidAt res now true); [by rewrite lookup_delete_eq|done].
  - rewrite lookup_insert_ne by done.
    assert (requests W (mergeEntry now (r, res) st) !! req
            = requests W st !! req) as ->.
    { simpl. destruct (WasValidAt res now true); [by rewrite lookup_delete_ne|done]. }
    done.
Qed.

Lemma handleFetcherKeysLoop_batch now l (storeResults : Results) st req :
  NoDup l.*1 ->
  (handleFetcherKeysLoop W s now l storeResults st).1 !! req =
    match (list_to_map l : Results) !! req with
    | Some res => if decide (staged (results W st) (req, res))
                  then Some res else storeResults !! req
    | None => storeResults !! req
    end.
Proof.
  revert storeResults st. induction l as [|[r res] l IH]; intros sr st Hnd; [done|].
  apply NoDup_cons in Hnd as [Hr Hnd].
  cbn [handleFetcherKeysLoop]. rewrite bind_run, handleFetcherKey_run.
  cbn [fst snd]. rewrite IH by done. cbn [list_to_map foldr curry fst snd].
  destruct (decide (r = req)) as [->|Hne].
  - rewrite lookup_insert_eq.
    rewrite (not_elem_of_list_to_map_1 _ _ Hr).
    destruct (decide _); [by rewrite lookup_insert_eq|done].
  - rewrite lookup_insert_ne by done.
    assert (∀ res', staged (results W (mergeEntry now (r, res) st)) (req, res')
                    ↔ staged (results W st) (req, res')) as Hst.
    { intros res'. unfold staged. cbn. by rewrite lookup_insert_ne. }
    destruct (list_to_map l !! req) as [res'|].
    + rewrite (decide_ext _ _ _ _ (Hst res')).
      destruct (decide (staged (results W st) (req, res'))); [done|].
      destruct (decide _); [by rewrite lookup_insert_ne|done].
    + destruct (decide _); [by rewrite lookup_insert_ne|done].
Qed.

Lemma handleFetcherKeysLoop_storeBatch now (answer : Results) st :
  (handleFetcherKeysLoop W s now (map_to_list answer) ∅ st).1
  = storeBatch (results W st) answer.
Proof.
  apply map_eq. intros req.
  rewrite handleFetcherKeysLoop_batch by apply NoDup_fst_map_to_list.
  rewrite list_to_map_to_list, lookup_empty. unfold storeBatch.
  destruct (answer !! req) as [res|] eqn:E.
  - destruct (decide _) as [Hst|Hst]; symmetry.
    + by apply map_lookup_filter_Some.
    + apply map_lookup_filter_None. right. intros res' E'. congruence.
  - symmetry. apply map_lookup_filter_None. by left.
Qed.

Lemma merged_results_map now (answer : Results) st req :
  results W (merged now (map_to_list answer) st) !! req =
    match answer !! req with
    | Some res => Some res
    | None => results W st !! req
    end.
Proof.
  rewrite merged_results by apply NoDup_fst_map_to_list.
  by rewrite list_to_map_to_list.
Qed.

Lemma merged_requests_map now (answer : Results) st req :
  requests W (merged now (map_to_list answer) st) !! req =
    match answer !! req with
    | Some res => if WasValidAt res now true then None else requests W st !! req
    | None => requests W st !! req
    end.
Proof.
  rewrite merged_requests by apply NoDup_fst_map_to_list.
  by rewrite list_to_map_to_list.
Qed.

(** Go does not fix the order in which [handleFetcherKeys] ranges over the
    answer of a fetcher.  The order does not matter: the body touches the
    entries of one request only, so every enumeration of the answer leaves
    the same batch, the same [results] and the same [requests]. *)
Lemma handleFetcherKeysLoop_any_order now (answer : Results)
    (l : list (PublicKeyLookupRequest * PublicKeyLookupResult)) st :
  l ≡ₚ map_to_list answer ->
  (handleFetcherKeysLoop W s now l ∅ st).1 = storeBatch (results W st) answer ∧
  ∀ req,
    results W (handleFetcherKeysLoop W s now l ∅ st).2 !! req =
      match answer !! req with
      | Some res => Some res
      | None => results W st !! req
      end ∧
    requests W (handleFetcherKeysLoop W s now l ∅ st).2 !! req =
      match answer !! req with
      | Some res => if WasValidAt res now true then None else requests W st !! req
      | None => requests W st !! req
      end.
Proof.
  intros Hperm.
  assert (NoDup l.*1) as Hnd.
  { rewrite Hperm. apply NoDup_fst_map_to_list. }
  assert ((list_to_map l : Results) = answer) as Hmap.
  { rewrite (list_to_map_proper l (map_to_list answer) Hnd Hperm).
    apply list_to_map_to_list. }
  split.
  - rewrite <- handleFetcherKeysLoop_storeBatch with (now := now).
    apply map_eq. intros req.
    rewrite !handleFetcherKeysLoop_batch; [|apply NoDup_fst_map_to_list|done].
    by rewrite Hmap, list_to_map_to_list.
  - intros req. rewrite handleFetcherKeysLoop_state.
    rewrite merged_results, merged_requests by done. by rewrite Hmap.
Qed.

(** ** The database stage *)

Lemma handleDatabaseKeys_run ctx now st :
  handleDatabaseKeys W s ctx now st =
    match (databaseAnswer ctx st).1.2 with
    | Some e => (Some e, databaseAsked ctx st)
    | None =>
        (None, merged now (map_to_list (databaseAnswer ctx st).1.1)
                 (databaseAsked ctx st))
    end.
Proof.
  unfold handleDatabaseKeys, databaseFetchKeys, databaseAsked, databaseAnswer.
  rewrite !bind_run. unfold getRequests, getWorld. cbn [fst snd].
  destruct (FetchKeys_of W _ ctx (requests W st) (world W st))
    as [[dbResults err] w'].
  rewrite !bind_run. cbn [fst snd setWorld emit ret requests results world trace].
  destruct err as [e|]; [done|].
  by rewrite bind_run, handleDatabaseKeys_loop.
Qed.

(** ** One fetcher stage *)

Lemma handleFetcherKeys_run ctx now fetcher st :
  handleFetcherKeys W s ctx now fetcher st =
    match (fetcherAnswer ctx fetcher st).1.2 with
    | Some e => (Some e, fetcherAsked ctx fetcher st)
    | None =>
        (StoreKeysFailed <$> (storeAnswer ctx fetcher st).1,
         fetcherMerged ctx now fetcher st)
    end.
Proof.
  unfold handleFetcherKeys. rewrite !bind_run.
  unfold getRequests, log, emit, fetcherFetchKeys. cbn [fst snd].
  rewrite !bind_run. unfold getRequests, getWorld. cbn [fst snd requests world].
  unfold fetcherMerged, storeLog, storeAnswer, fetcherAsked, fetcherAnswer, fetcherCtx.
  destruct (FetchKeys_of W fetcher _ (requests W st) (world W st))
    as [[fetcherResults err] w'].
  rewrite !bind_run.
  cbn [fst snd setWorld emit ret requests results world trace].
  rewrite <- !app_assoc. cbn [app].
  destruct err as [e|]; [done|].
  rewrite bind_run.
  match goal with
  | |- context [handleFetcherKeysLoop W s now ?l ∅ ?x] =>
      pose proof (handleFetcherKeysLoop_storeBatch now fetcherResults x) as Hb;
      pose proof (handleFetcherKeysLoop_state now l ∅ x) as Hs;
      destruct (handleFetcherKeysLoop W s now l ∅ x) as [batch st1]
  end.
  cbn [fst snd results] in Hb, Hs. subst batch st1.
  unfold databaseStoreKeys. rewrite !bind_run. unfold getWorld. cbn [fst snd].
  rewrite merged_world. cbn [world].
  destruct (StoreKeys_of W database ctx _ w') as [serr w''].
  rewrite !bind_run.
  cbn [fst snd setWorld emit ret requests results world trace].
  rewrite !merged_trace. cbn [trace].
  destruct serr as [e|].
  - rewrite bind_run. unfold log, emit.
    cbn [fst snd ret requests results world trace fmap option_fmap option_map].
    by rewrite <- !app_assoc.
  - rewrite !bind_run. unfold getResults. cbn [fst snd results].
    destruct (decide _).
    + unfold log, emit.
      cbn [fst snd ret requests results world trace fmap option_fmap option_map].
      by rewrite <- !app_assoc.
    + cbn [fst snd ret requests results world trace fmap option_fmap option_map].
      by rewrite <- !app_assoc.
Qed.

(** ** The fetcher stages as a whole *)

Lemma stageEvent_mono ctx (p1 p2 : Requests) ev :
  p1 ⊆ p2 -> stageEvent ctx p1 ev -> stageEvent ctx p2 ev.
Proof.
  intros Hsub. destruct ev; simpl; try done.
  intros [? ?]. split; [done|]. by etrans.
Qed.

Lemma cascades_refl ctx st : cascades ctx st st.
Proof.
  split; [done|]. exists []. rewrite app_nil_r.
  split; [done|]. split; [by constructor|]. intros req. split; [by left|].
  intros [?|H]; [done|]. by apply Exists_nil in H.
Qed.

Lemma cascades_trans ctx st1 st2 st3 :
  cascades ctx st1 st2 -> cascades ctx st2 st3 -> cascades ctx st1 st3.
Proof.
  intros [Hq1 (evs1 & Ht1 & Hf1 & Hr1)] [Hq2 (evs2 & Ht2 & Hf2 & Hr2)].
  split; [by etrans|]. exists (evs1 ++ evs2).
  split; [by rewrite Ht2, Ht1, app_assoc|]. split.
  - apply Forall_app. split; [done|].
    eapply Forall_impl; [exact Hf2|]. intros ev. by apply stageEvent_mono.
  - intros req. destruct (Hr1 req) as [Hc1 Hg1], (Hr2 req) as [Hc2 Hg2]. split.
    + destruct Hc2 as [E2|E2].
      * destruct Hc1 as [E1|E1].
        -- left. by rewrite E2.
        -- right. apply Exists_app. by left.
      * right. apply Exists_app. by right.
    + intros [H|H].
      * apply Hg2. left. apply Hg1. by left.
      * apply Exists_app in H as [H|H].
        -- apply Hg2. left. apply Hg1. by right.
        -- apply Hg2. by right.
Qed.

Lemma storeBatch_not_self (known answer : Results) req :
  isSelf req -> storeBatch known answer !! req = None.
Proof.
  intros Hself. apply map_lookup_filter_None. right.
  intros res _ [Hn _]. by apply Hn.
Qed.

Lemma merged_requests_subseteq now (answer : Results) st :
  requests W (merged now (map_to_list answer) st) ⊆ requests W st.
Proof.
  apply map_subseteq_spec. intros req ts. rewrite merged_requests_map.
  destruct (answer !! req); [|done]. by destruct (WasValidAt _ _ _).
Qed.

Lemma handleFetcherKeys_cascades ctx now fetcher st :
  cascades ctx st (handleFetcherKeys W s ctx now fetcher st).2.
Proof.
  rewrite handleFetcherKeys_run.
  destruct (fetcherAnswer ctx fetcher st) as [[answer err] w'] eqn:E.
  cbn [fst snd]. destruct err as [e|]; cbn [snd].
  - split; [done|]. eexists. split; [done|]. split.
    + apply Forall_cons_2; [done|]. apply Forall_cons_2; [done|]. apply Forall_nil_2.
    + intros req. split; [by left|]. intros [?|H]; [done|].
      rewrite E in H.
      apply Exists_cons in H as [[]|H]. apply Exists_cons in H as [[]|H].
      by apply Exists_nil in H.
  - split; [exact (merged_requests_subseteq now _ (fetcherAsked ctx fetcher st))|].
    eexists. split.
    { unfold fetcherMerged, fetcherAsked. cbn [trace].
      rewrite <- app_assoc. done. }
    split.
    + cbn [app]. apply Forall_cons_2; [done|]. apply Forall_cons_2; [done|].
      apply Forall_cons_2; [split; [done|apply storeBatch_not_self]|].
      unfold storeLog. destruct (storeAnswer ctx fetcher st).1.
      * apply Forall_cons_2; [done|]. apply Forall_nil_2.
      * destruct (decide _); [|apply Forall_nil_2].
        apply Forall_cons_2; [done|]. apply Forall_nil_2.
    + intros req. unfold fetcherMerged. cbn [results].
      rewrite merged_results_map. rewrite E. cbn [fst snd].
      destruct (answer !! req) as [res|] eqn:Ea.
      * split; [|done].
        right. cbn [app]. apply Exists_cons_tl, Exists_cons_hd.
        simpl. by rewrite Ea.
      * split; [by left|]. intros [?|H]; [done|]. exfalso.
        cbn [app] in H. apply Exists_cons in H as [[]|H].
        apply Exists_cons in H as [H|H].
        { simpl in H. rewrite Ea in H. by destruct H. }
        apply Exists_cons in H as [[]|H].
        unfold storeLog in H. destruct (storeAnswer ctx fetcher st).1.
        { apply Exists_cons in H as [[]|H]. by apply Exists_nil in H. }
        destruct (decide _); [|by apply Exists_nil in H].
        apply Exists_cons in H as [[]|H]. by apply Exists_nil in H.
Qed.

Lemma log_cascades ctx entry st : cascades ctx st (log W entry st).2.
Proof.
  split; [done|]. exists [EvLog entry]. split; [done|].
  split; [apply Forall_cons_2; [done|]; apply Forall_nil_2|].
  intros req. split; [by left|]. intros [?|H]; [done|].
  apply Exists_cons in H as [[]|H]. by apply Exists_nil in H.
Qed.

Lemma fetcherLoop_cascades ctx now fetchers st :
  cascades ctx st (fetcherLoop W s ctx now fetchers st).2.
Proof.
  revert st. induction fetchers as [|fetcher rest IH]; intros st.
  - apply cascades_refl.
  - cbn [fetcherLoop]. rewrite bind_run. unfold getRequests. cbn [fst snd].
    destruct (decide _); [apply cascades_refl|].
    rewrite bind_run.
    pose proof (handleFetcherKeys_cascades ctx now fetcher st) as Hc.
    destruct (handleFetcherKeys W s ctx now fetcher st) as [[e|] st1]; cbn [fst snd] in *.
    + rewrite !bind_run. cbn [fst snd].
      eapply cascades_trans; [exact Hc|].
      eapply cascades_trans; [apply log_cascades|apply IH].
    + eapply cascades_trans; [exact Hc|apply IH].
Qed.

(** ** A call of [FetchKeys], stage by stage *)

Lemma call_run callerCtx (reqs : Requests) (w : W) :
  call W time_Now s callerCtx reqs w =
    match (databaseAnswer Background (afterLocalKeys reqs w)).1.2 with
    | Some e =>
        ((None, Some e), databaseAsked Background (afterLocalKeys reqs w))
    | None =>
        let st := afterFetchers reqs w in
        match firstUnsatisfied (map_to_list reqs).*1 (results W st) with
        | Some req =>
            ((Some (results W st),
              Some (RequestUnsatisfied (gomatrixserverlib.ServerName req)
                      (gomatrixserverlib.KeyID req))),
             (log W (LogMissingKey (gomatrixserverlib.KeyID req)
                       (gomatrixserverlib.ServerName req)) st).2)
        | None => ((Some (results W st), None), st)
        end
    end.
Proof.
  unfold call, FetchKeys. rewrite bind_run, timeNow_run. cbn [fst snd requests
    results world trace app].
  rewrite !bind_run. unfold newResults, getRequests. cbn [fst snd requests
    results world trace].
  change (handleLocalKeys W time_Now s Background _)
    with (handleLocalKeys W time_Now s Background (entered reqs w)).
  fold (afterLocalKeys reqs w). fold (nowOf w).
  rewrite handleDatabaseKeys_run.
  destruct (databaseAnswer Background (afterLocalKeys reqs w)).1.2 as [e|] eqn:E;
    cbn [fst snd]; [done|].
  rewrite bind_run. fold (afterDatabaseKeys reqs w). fold (afterFetchers reqs w).
  rewrite bind_run. unfold getResults. cbn [fst snd].
  destruct (firstUnsatisfied _ _) as [req|]; [|done].
  by rewrite bind_run.
Qed.

Lemma afterLocalKeys_spec (reqs : Requests) (w : W) :
  ∃ ts : list Time,
    trace W (afterLocalKeys reqs w) = EvNow <$> ((time_Now w).1 :: ts) ∧
    ∀ req,
      (isSelf req ∧ is_Some (reqs !! req) →
         requests W (afterLocalKeys reqs w) !! req = None ∧
         ∃ t, t ∈ ts ∧
              results W (afterLocalKeys reqs w) !! req = Some (selfKeyResult t)) ∧
      (¬ (isSelf req ∧ is_Some (reqs !! req)) →
         requests W (afterLocalKeys reqs w) !! req = reqs !! req ∧
         results W (afterLocalKeys reqs w) !! req = None).
Proof.
  unfold afterLocalKeys, handleLocalKeys. rewrite bind_run.
  unfold getRequests. cbn [fst snd].
  destruct (handleLocalKeys_loop (map_to_list reqs).*1 (entered reqs w))
    as (ts & Htr & H).
  cbv zeta in Htr, H. cbn [requests entered] in *.
  exists ts. split; [by rewrite Htr|].
  assert (∀ req, req ∈ (map_to_list reqs).*1 ↔ is_Some (reqs !! req)) as Hin.
  { intros req. rewrite list_elem_of_fmap. split.
    - intros ([r v] & -> & Hrv). apply elem_of_map_to_list in Hrv. by exists v.
    - intros [v Hv]. exists (req, v). split; [done|]. by apply elem_of_map_to_list. }
  intros req. destruct (H req) as [Hs Hn]. split.
  - intros [? ?]. apply Hs. split; [done|]. by apply Hin.
  - intros Hnot. destruct Hn as [Hq Hr].
    { intros [? ?]. apply Hnot. split; [done|]. by apply Hin. }
    split; [done|]. by rewrite Hr.
Qed.

Lemma afterLocalKeys_not_self (reqs : Requests) (w : W) req :
  isSelf req -> requests W (afterLocalKeys reqs w) !! req = None.
Proof.
  intros Hself. destruct (afterLocalKeys_spec reqs w) as (ts & _ & H).
  destruct (H req) as [Hs Hn].
  destruct (reqs !! req) as [v|] eqn:E.
  - apply Hs. split; [done|]. by exists v.
  - destruct Hn as [Hq _]; [|by rewrite Hq].
    intros [_ [v ?]]. congruence.
Qed.

Lemma afterLocalKeys_subseteq (reqs : Requests) (w : W) :
  requests W (afterLocalKeys reqs w) ⊆ reqs.
Proof.
  apply map_subseteq_spec. intros req v Hv.
  destruct (afterLocalKeys_spec reqs w) as (ts & _ & H).
  destruct (H req) as [Hs Hn].
  destruct (decide (isSelf req ∧ is_Some (reqs !! req))) as [Hd|Hd].
  - destruct (Hs Hd) as [Hq _]. congruence.
  - destruct (Hn Hd) as [Hq _]. congruence.
Qed.

Lemma afterDatabaseKeys_trace (reqs : Requests) (w : W) :
  trace W (afterDatabaseKeys reqs w) =
    trace W (afterLocalKeys reqs w)
    ++ [EvDatabaseFetch Background (requests W (afterLocalKeys reqs w))
          (databaseAnswer Background (afterLocalKeys reqs w)).1].
Proof. unfold afterDatabaseKeys. by rewrite merged_trace. Qed.

Lemma afterDatabaseKeys_subseteq (reqs : Requests) (w : W) :
  requests W (afterDatabaseKeys reqs w) ⊆ requests W (afterLocalKeys reqs w).
Proof.
  exact (merged_requests_subseteq _ _ (databaseAsked Background (afterLocalKeys reqs w))).
Qed.

Lemma afterDatabaseKeys_results (reqs : Requests) (w : W) req :
  results W (afterDatabaseKeys reqs w) !! req =
    match (databaseAnswer Background (afterLocalKeys reqs w)).1.1 !! req with
    | Some res => Some res
    | None => results W (afterLocalKeys reqs w) !! req
    end.
Proof. unfold afterDatabaseKeys. by rewrite merged_results_map. Qed.

Lemma afterFetchers_cascades (reqs : Requests) (w : W) :
  cascades Background (afterDatabaseKeys reqs w) (afterFetchers reqs w).
Proof. apply fetcherLoop_cascades. Qed.

Lemma firstUnsatisfied_None (l : list PublicKeyLookupRequest) (known : Results) :
  firstUnsatisfied l known = None ↔ ∀ req, req ∈ l -> is_Some (known !! req).
Proof.
  induction l as [|r l IH]; simpl.
  - split; [|done]. intros _ req H. by apply elem_of_nil in H.
  - destruct (known !! r) as [res|] eqn:E.
    + rewrite IH. split.
      * intros H req Hin. apply elem_of_cons in Hin as [->|?]; [by exists res|by apply H].
      * intros H req Hin. apply H. by right.
    + split; [done|]. intros H. destruct (H r) as [? ?]; [by left|congruence].
Qed.

Lemma firstUnsatisfied_Some (l : list PublicKeyLookupRequest) (known : Results) req :
  firstUnsatisfied l known = Some req -> req ∈ l ∧ known !! req = None.
Proof.
  induction l as [|r l IH]; simpl; [done|].
  destruct (known !! r) as [res|] eqn:E.
  - intros H. destruct (IH H). split; [by right|done].
  - intros [= <-]. split; [by left|done].
Qed.

Lemma elem_of_keys (reqs : Requests) req :
  req ∈ (map_to_list reqs).*1 ↔ is_Some (reqs !! req).
Proof.
  rewrite list_elem_of_fmap. split.
  - intros ([r v] & -> & Hrv). apply elem_of_map_to_list in Hrv. by exists v.
  - intros [v Hv]. exists (req, v). split; [done|]. by apply elem_of_map_to_list.
Qed.

(** The two ways a call ends. *)
Lemma call_aborted callerCtx (reqs : Requests) (w : W) e :
  (databaseAnswer Background (afterLocalKeys reqs w)).1.2 = Some e ->
  call W time_Now s callerCtx reqs w =
    ((None, Some e), databaseAsked Background (afterLocalKeys reqs w)).
Proof. intros E. by rewrite call_run, E. Qed.

Lemma call_completed callerCtx (reqs : Requests) (w : W) :
  (databaseAnswer Background (afterLocalKeys reqs w)).1.2 = None ->
  ∃ logs : list LogEntry,
    (call W time_Now s callerCtx reqs w).1 =
      (Some (results W (afterFetchers reqs w)),
       (fun req => RequestUnsatisfied (gomatrixserverlib.ServerName req)
                     (gomatrixserverlib.KeyID req))
         <$> firstUnsatisfied (map_to_list reqs).*1 (results W (afterFetchers reqs w))) ∧
    requests W (call W time_Now s callerCtx reqs w).2
      = requests W (afterFetchers reqs w) ∧
    results W (call W time_Now s callerCtx reqs w).2
      = results W (afterFetchers reqs w) ∧
    trace W (call W time_Now s callerCtx reqs w).2
      = trace W (afterFetchers reqs w) ++ (EvLog <$> logs).
Proof.
  intros E. rewrite call_run, E. cbv zeta.
  destruct (firstUnsatisfied _ _) as [req|].
  - eexists [_]. done.
  - exists []. by rewrite app_nil_r.
Qed.

Lemma stageEvent_callEvent (pending : Requests) ev :
  (∀ req, isSelf req -> pending !! req = None) ->
  stageEvent Background pending ev -> callEvent ev.
Proof.
  intros Hp. destruct ev as [t|c asked a|name c asked a|c batch a|entry];
    simpl; try done.
  intros [-> Hsub]. split; [done|]. intros req Hself.
  specialize (Hp req Hself).
  destruct (asked !! req) as [v|] eqn:E; [|done].
  eapply lookup_weaken in E; [|exact Hsub]. congruence.
Qed.

Lemma Forall_fmap_EvNow (P : Event -> Prop) (ts : list Time) :
  (∀ t, P (EvNow t)) -> Forall P (EvNow <$> ts).
Proof. intros H. apply Forall_fmap, Forall_forall. intros t _. apply H. Qed.

Lemma Forall_fmap_EvLog (P : Event -> Prop) (logs : list LogEntry) :
  (∀ entry, P (EvLog entry)) -> Forall P (EvLog <$> logs).
Proof. intros H. apply Forall_fmap, Forall_forall. intros t _. apply H. Qed.

Lemma call_events callerCtx (reqs : Requests) (w : W) :
  Forall callEvent (trace W (call W time_Now s callerCtx reqs w).2).
Proof.
  destruct (afterLocalKeys_spec reqs w) as (ts & Htr & _).
  destruct (databaseAnswer Background (afterLocalKeys reqs w)).1.2 as [e|] eqn:E.
  - rewrite (call_aborted _ _ _ _ E). cbn [snd databaseAsked trace].
    rewrite Htr. apply Forall_app. split; [by apply Forall_fmap_EvNow|].
    apply Forall_cons_2; [|apply Forall_nil_2].
    split; [done|]. apply afterLocalKeys_not_self.
  - destruct (call_completed callerCtx _ _ E) as (logs & _ & _ & _ & ->).
    destruct (afterFetchers_cascades reqs w) as [_ (evs & -> & Hevs & _)].
    rewrite afterDatabaseKeys_trace, Htr.
    repeat (apply Forall_app; split).
    + by apply Forall_fmap_EvNow.
    + apply Forall_cons_2; [|apply Forall_nil_2].
      split; [done|]. apply afterLocalKeys_not_self.
    + eapply Forall_impl; [exact Hevs|]. intros ev.
      apply stageEvent_callEvent. intros req Hself.
      pose proof (afterLocalKeys_not_self reqs w req Hself) as Hn.
      destruct (requests W (afterDatabaseKeys reqs w) !! req) as [v|] eqn:Ev; [|done].
      eapply lookup_weaken in Ev; [|apply afterDatabaseKeys_subseteq]. congruence.
    + by apply Forall_fmap_EvLog.
Qed.

(** The database is fetched from once in a call, and the answer recorded
    in the trace is the one the call acts on. *)
Lemma call_database_event callerCtx (reqs : Requests) (w : W) c asked answer :
  EvDatabaseFetch c asked answer ∈ trace W (call W time_Now s callerCtx reqs w).2 ->
  answer = (databaseAnswer Background (afterLocalKeys reqs w)).1.
Proof.
  destruct (afterLocalKeys_spec reqs w) as (ts & Htr & _).
  assert (∀ l : list Time, EvDatabaseFetch c asked answer ∉ EvNow <$> l) as Hnow.
  { intros l H. apply list_elem_of_fmap in H as (t & ? & _). done. }
  destruct (databaseAnswer Background (afterLocalKeys reqs w)).1.2 as [e|] eqn:E.
  - rewrite (call_aborted _ _ _ _ E). cbn [snd databaseAsked trace]. rewrite Htr.
    intros H. apply elem_of_app in H as [H|H]; [by apply Hnow in H|].
    apply list_elem_of_singleton in H. congruence.
  - destruct (call_completed callerCtx _ _ E) as (logs & _ & _ & _ & ->).
    destruct (afterFetchers_cascades reqs w) as [_ (evs & -> & Hevs & _)].
    rewrite afterDatabaseKeys_trace, Htr. intros H.
    apply elem_of_app in H as [H|H].
    + apply elem_of_app in H as [H|H].
      * apply elem_of_app in H as [H|H]; [by apply Hnow in H|].
        apply list_elem_of_singleton in H. congruence.
      * rewrite Forall_forall in Hevs. by apply Hevs in H.
    + apply list_elem_of_fmap in H as (entry & ? & _). done.
Qed.

Lemma call_database_failed callerCtx (reqs : Requests) (w : W) c asked answer e :
  EvDatabaseFetch c asked (answer, Some e)
    ∈ trace W (call W time_Now s callerCtx reqs w).2 ->
  (databaseAnswer Background (afterLocalKeys reqs w)).1.2 = Some e.
Proof. intros H. apply call_database_event in H. by rewrite <- H. Qed.

Lemma call_database_answered callerCtx (reqs : Requests) (w : W) c asked answer :
  EvDatabaseFetch c asked (answer, None)
    ∈ trace W (call W time_Now s callerCtx reqs w).2 ->
  (databaseAnswer Background (afterLocalKeys reqs w)).1.2 = None.
Proof. intros H. apply call_database_event in H. by rewrite <- H. Qed.

(** ** The database stage fails *)

(** C3: when the batch fetch of the key database returns an error, the call
    returns that very error at once: no fetcher is consulted, no store is
    issued, and the result map that comes back (here [nil]) has nothing that
    the self-key stage had not produced. *)
Theorem database_error_aborts_call callerCtx (reqs : Requests) (w : W)
    c asked answer e :
  EvDatabaseFetch c asked (answer, Some e)
    ∈ trace W (call W time_Now s callerCtx reqs w).2 ->
  (call W time_Now s callerCtx reqs w).1 = (None, Some e) ∧
  Forall (fun ev => ¬ fetchOrStore ev)
    (trace W (call W time_Now s callerCtx reqs w).2) ∧
  ∀ req res,
    default ∅ (call W time_Now s callerCtx reqs w).1.1 !! req = Some res ->
    results W (afterLocalKeys reqs w) !! req = Some res.
Proof.
  intros E%call_database_failed. rewrite (call_aborted _ _ _ _ E). cbn [fst snd].
  split; [done|]. split; [|done].
  destruct (afterLocalKeys_spec reqs w) as (ts & Htr & _).
  cbn [databaseAsked trace]. rewrite Htr. apply Forall_app. split.
  - apply Forall_fmap_EvNow. intros t. simpl. tauto.
  - apply Forall_cons_2; [simpl; tauto|apply Forall_nil_2].
Qed.

(** ** Requests for our own keys *)

Lemma Exists_answersFor_EvNow req (ts : list Time) :
  ¬ Exists (answersFor req) (EvNow <$> ts).
Proof.
  intros H. apply Exists_exists in H as (ev & Hin & Hev).
  apply list_elem_of_fmap in Hin as (t & -> & _). done.
Qed.

Lemma Exists_answersFor_EvLog req (logs : list LogEntry) :
  ¬ Exists (answersFor req) (EvLog <$> logs).
Proof.
  intros H. apply Exists_exists in H as (ev & Hin & Hev).
  apply list_elem_of_fmap in Hin as (t & -> & _). done.
Qed.

Lemma handleLocalKeys_loop_readings (l : list PublicKeyLookupRequest) st :
  NoDup l ->
  ∃ ts : list Time,
    trace W (forEach l (handleLocalKey W time_Now s) st).2
      = trace W st ++ (EvNow <$> ts) ∧
    ∀ k req,
      filter isSelf l !! k = Some req ->
      ts !! k = Some (reading k (world W st)) ∧
      results W (forEach l (handleLocalKey W time_Now s) st).2 !! req
        = Some (selfKeyResult (reading k (world W st))).
Proof.
  revert st. induction l as [|r l IH]; intros st Hnd.
  - exists []. split; [by rewrite forEach_nil, app_nil_r|]. by intros k req H.
  - apply NoDup_cons in Hnd as [Hr Hnd].
    rewrite forEach_cons, handleLocalKey_run. cbn [snd].
    destruct (decide (isSelf r)) as [Hself|Hnot].
    + match goal with |- context [forEach l _ ?x] => remember x as st1 eqn:E1 end.
      assert (world W st1 = (time_Now (world W st)).2) as Hw by (by subst).
      assert (results W st1
              = <[r := selfKeyResult (time_Now (world W st)).1]> (results W st))
        as Hres by (by subst).
      assert (trace W st1 = trace W st ++ [EvNow (time_Now (world W st)).1])
        as Ht by (by subst).
      clear E1. destruct (IH st1 Hnd) as (ts & Htr & Hk).
      exists ((time_Now (world W st)).1 :: ts). split.
      { rewrite Htr, Ht. by rewrite <- app_assoc. }
      intros k req. rewrite filter_cons_True by done.
      destruct k as [|k]; cbn [lookup list_lookup].
      * intros [= <-]. split; [done|].
        destruct (handleLocalKeys_loop l st1) as (ts' & _ & H). cbv zeta in H.
        destruct (H r) as [_ Hn]. destruct Hn as [_ ->]; [tauto|].
        by rewrite Hres, lookup_insert_eq.
      * intros Hreq. destruct (Hk k req Hreq) as [H1 H2].
        rewrite Hw in H1, H2. split; [exact H1|exact H2].
    + rewrite filter_cons_False by done. by apply IH.
Qed.

Lemma afterLocalKeys_readings (reqs : Requests) (w : W) :
  ∃ ts : list Time,
    trace W (afterLocalKeys reqs w) = EvNow <$> (reading 0 w :: ts) ∧
    ∀ k req,
      ownRequests reqs !! k = Some req ->
      ts !! k = Some (reading (S k) w) ∧
      results W (afterLocalKeys reqs w) !! req
        = Some (selfKeyResult (reading (S k) w)).
Proof.
  unfold afterLocalKeys, handleLocalKeys. rewrite bind_run.
  unfold getRequests. cbn [fst snd].
  destruct (handleLocalKeys_loop_readings (map_to_list reqs).*1 (entered reqs w))
    as (ts & Htr & H); [apply NoDup_fst_map_to_list|].
  cbn [requests entered] in *. exists ts. split; [by rewrite Htr|].
  intros k req Hk. exact (H k req Hk).
Qed.

Lemma call_trace_after_local callerCtx (reqs : Requests) (w : W) :
  ∃ evs : list Event,
    trace W (call W time_Now s callerCtx reqs w).2
      = trace W (afterLocalKeys reqs w) ++ evs.
Proof.
  destruct (databaseAnswer Background (afterLocalKeys reqs w)).1.2 as [e|] eqn:E.
  - rewrite (call_aborted _ _ _ _ E). cbn [snd databaseAsked trace]. by eexists.
  - destruct (call_completed callerCtx _ _ E) as (logs & _ & _ & _ & ->).
    destruct (afterFetchers_cascades reqs w) as [_ (evs & -> & _)].
    rewrite afterDatabaseKeys_trace, <- !app_assoc. by eexists.
Qed.

(** C4, as the code has it: a request of the batch for one of our own keys
    is in no batch that the database or a fetcher is asked for, and the
    self-key stage answers it with our own public key, no expiry, and a
    validity that ends [ServerKeyValidity] after the reading of the clock
    that the stage takes when it comes to that request: for the request
    that it handles as number [k] of our own, the reading after the one
    that [now] is made of and after those for the [k] requests before it.
    That entry is the one returned when the database fetch succeeds and no
    answer of the database or of a fetcher has an entry for the request. *)
Theorem self_request_kept_local callerCtx (reqs : Requests) (w : W) req :
  isSelf req ->
  is_Some (reqs !! req) ->
  Forall (notAskedFor req) (trace W (call W time_Now s callerCtx reqs w).2) ∧
  ∃ k : nat,
    ownRequests reqs !! k = Some req ∧
    trace W (call W time_Now s callerCtx reqs w).2 !! 0
      = Some (EvNow (reading 0 w)) ∧
    trace W (call W time_Now s callerCtx reqs w).2 !! S k
      = Some (EvNow (reading (S k) w)) ∧
    results W (afterLocalKeys reqs w) !! req
      = Some (selfKeyResult (reading (S k) w)) ∧
    (∀ c asked answer,
       EvDatabaseFetch c asked (answer, None)
         ∈ trace W (call W time_Now s callerCtx reqs w).2 ->
       ¬ Exists (answersFor req) (trace W (call W time_Now s callerCtx reqs w).2) ->
       ∃ returned : Results,
         (call W time_Now s callerCtx reqs w).1.1 = Some returned ∧
         returned !! req = Some (selfKeyResult (reading (S k) w))).
Proof.
  intros Hself Hin. split.
  { eapply Forall_impl; [apply call_events|].
    intros [t|c asked a|name c asked a|c batch a|entry]; simpl; try done.
    - intros [_ H]. by apply H.
    - intros [_ H]. by apply H. }
  assert (req ∈ ownRequests reqs) as Hown.
  { unfold ownRequests. apply list_elem_of_filter. split; [done|].
    by apply elem_of_keys. }
  apply list_elem_of_lookup_1 in Hown as [k Hk]. exists k.
  destruct (afterLocalKeys_readings reqs w) as (ts & Hts & Hread).
  destruct (Hread k req Hk) as [Htk Hentry].
  destruct (call_trace_after_local callerCtx reqs w) as (evs0 & Hpre).
  split; [exact Hk|]. split.
  { rewrite Hpre, Hts. done. }
  split.
  { rewrite Hpre, Hts. apply lookup_app_l_Some.
    cbn [fmap list_fmap lookup list_lookup].
    etrans; [apply (list_lookup_fmap EvNow ts k)|]. by rewrite Htk. }
  split; [exact Hentry|].
  intros c asked _ E%call_database_answered Hnone.
  destruct (call_completed callerCtx _ _ E) as (logs & Hout & _ & _ & Htr).
  rewrite Htr in Hnone. rewrite Hout. cbn [fst].
  destruct (afterFetchers_cascades reqs w) as [_ (evs & Hevs & _ & Hres)].
  rewrite Hevs, afterDatabaseKeys_trace in Hnone.
  exists (results W (afterFetchers reqs w)). split; [done|].
  destruct (Hres req) as [[-> | Hex] _].
  - rewrite afterDatabaseKeys_results.
    destruct ((databaseAnswer Background (afterLocalKeys reqs w)).1.1 !! req)
      as [res|] eqn:Ea; [|done].
    exfalso. apply Hnone. apply Exists_app. left. apply Exists_app. left.
    apply Exists_app. right. apply Exists_cons_hd.
    destruct (databaseAnswer Background (afterLocalKeys reqs w)).1 as [answer err].
    cbn [fst snd] in *. subst err. simpl. by rewrite Ea.
  - exfalso. apply Hnone. apply Exists_app. left. apply Exists_app. by right.
Qed.

(** C7: whatever the database and the fetchers answer, no batch that a call
    passes to the store operation of the database has an entry for a request
    for one of our own keys. *)
Theorem store_batches_exclude_self callerCtx (reqs : Requests) (w : W)
    c (batch : Results) answer req :
  EvStore c batch answer ∈ trace W (call W time_Now s callerCtx reqs w).2 ->
  isSelf req ->
  batch !! req = None.
Proof.
  intros Hin Hself.
  pose proof (call_events callerCtx reqs w) as H.
  rewrite Forall_forall in H. destruct (H _ Hin) as [_ Hb]. by apply Hb.
Qed.

(** ** The caller's context and the caller's map *)

(** C6, as the code has it: [FetchKeys] does not look at the context of its
    caller.  The database fetch and the stores run on the background
    context, every fetcher on the background context with a timeout of 30
    seconds, and the call does the same whatever context it is given. *)
Theorem caller_context_is_ignored callerCtx (reqs : Requests) (w : W) :
  Forall runsDetached (trace W (call W time_Now s callerCtx reqs w).2) ∧
  call W time_Now s callerCtx reqs w = call W time_Now s Background reqs w.
Proof.
  split; [|done].
  eapply Forall_impl; [apply call_events|].
  intros [t|c asked a|name c asked a|c batch a|entry]; simpl; try done.
  - by intros [-> _].
  - by intros [-> _].
  - by intros [-> _].
Qed.

(** C8, as the code has it: [FetchKeys] works on the map of its caller.
    When the call returns, that map holds a part of what it held before,
    and no request for one of our own keys; the copy made on entry only
    serves the final check. *)
Theorem caller_map_is_pending_set callerCtx (reqs : Requests) (w : W) :
  requests W (call W time_Now s callerCtx reqs w).2 ⊆ reqs ∧
  ∀ req, isSelf req ->
         requests W (call W time_Now s callerCtx reqs w).2 !! req = None.
Proof.
  assert (requests W (call W time_Now s callerCtx reqs w).2
          ⊆ requests W (afterLocalKeys reqs w)) as Hsub.
  { destruct (databaseAnswer Background (afterLocalKeys reqs w)).1.2 as [e|] eqn:E.
    - by rewrite (call_aborted _ _ _ _ E).
    - destruct (call_completed callerCtx _ _ E) as (logs & _ & -> & _ & _).
      destruct (afterFetchers_cascades reqs w) as [Hq _].
      etrans; [exact Hq|apply afterDatabaseKeys_subseteq]. }
  split.
  - etrans; [exact Hsub|apply afterLocalKeys_subseteq].
  - intros req Hself.
    pose proof (afterLocalKeys_not_self reqs w req Hself) as Hn.
    destruct (requests W (call W time_Now s callerCtx reqs w).2 !! req)
      as [v|] eqn:Ev; [|done].
    eapply lookup_weaken in Ev; [|exact Hsub]. congruence.
Qed.

(** ** The final check *)

(** C5: in a call that gets past the database stage, the result map that
    comes back is the one accumulated by all stages: it has an entry for
    every request of the batch for one of our own keys and for every request
    that the database or a fetcher answered.  If some request of the batch as
    it was on entry has no entry in it, the call returns an error that names
    such a request; if every such request has one, it returns no error. *)
Theorem unsatisfied_request_is_reported callerCtx (reqs : Requests) (w : W)
    c asked answer :
  EvDatabaseFetch c asked (answer, None)
    ∈ trace W (call W time_Now s callerCtx reqs w).2 ->
  ∃ returned : Results,
    (call W time_Now s callerCtx reqs w).1.1 = Some returned ∧
    returned = results W (afterFetchers reqs w) ∧
    (∀ req,
       isSelf req ∧ is_Some (reqs !! req) ∨
       Exists (answersFor req) (trace W (call W time_Now s callerCtx reqs w).2) ->
       is_Some (returned !! req)) ∧
    ((∃ req, is_Some (reqs !! req) ∧ returned !! req = None) ->
     ∃ req, is_Some (reqs !! req) ∧ returned !! req = None ∧
            (call W time_Now s callerCtx reqs w).1.2
            = Some (RequestUnsatisfied (gomatrixserverlib.ServerName req)
                      (gomatrixserverlib.KeyID req))) ∧
    ((∀ req, is_Some (reqs !! req) -> is_Some (returned !! req)) ->
     (call W time_Now s callerCtx reqs w).1.2 = None).
Proof.
  intros E%call_database_answered.
  destruct (call_completed callerCtx _ _ E) as (logs & Hout & _ & _ & Htr).
  exists (results W (afterFetchers reqs w)). rewrite Hout, Htr. cbn [fst snd].
  split; [done|]. split; [done|].
  destruct (afterFetchers_cascades reqs w) as [_ (evs & Hevs & _ & Hres)].
  destruct (afterLocalKeys_spec reqs w) as (ts & Hts & Hloc).
  split; [|split].
  - intros req Hreq. apply (Hres req).
    destruct Hreq as [Hself|Hex].
    + left. rewrite afterDatabaseKeys_results.
      destruct (Hloc req) as [Hs _]. destruct (Hs Hself) as (_ & t & _ & ->).
      destruct ((databaseAnswer Background (afterLocalKeys reqs w)).1.1 !! req);
        by eexists.
    + rewrite Hevs, afterDatabaseKeys_trace, Hts in Hex.
      apply Exists_app in Hex as [Hex|Hex];
        [|by apply Exists_answersFor_EvLog in Hex].
      apply Exists_app in Hex as [Hex|Hex]; [|by right].
      apply Exists_app in Hex as [Hex|Hex];
        [by apply Exists_answersFor_EvNow in Hex|].
      left. rewrite afterDatabaseKeys_results.
      apply Exists_cons in Hex as [Hex|Hex]; [|by apply Exists_nil in Hex].
      destruct (databaseAnswer Background (afterLocalKeys reqs w)).1 as [dbAnswer err].
      cbn [fst snd] in *. subst err. simpl in Hex.
      destruct Hex as [res ->]. done.
  - intros (req & Hin & Hnone).
    destruct (firstUnsatisfied _ _) as [req'|] eqn:Ef.
    + apply firstUnsatisfied_Some in Ef as [Hin' Hnone'].
      exists req'. split; [by apply elem_of_keys|]. done.
    + exfalso. rewrite firstUnsatisfied_None in Ef.
      destruct (Ef req) as [res Hres']; [by apply elem_of_keys|]. congruence.
  - intros Hall.
    assert (firstUnsatisfied (map_to_list reqs).*1 (results W (afterFetchers reqs w))
            = None) as ->; [|done].
    apply firstUnsatisfied_None. intros req Hin. apply Hall. by apply elem_of_keys.
Qed.

(** ** What a fetcher stage does with an answer *)

(** C1, as the code has it: when [results] holds an entry for a request and
    a fetcher answers for that request with a result whose [ValidUntilTS] is
    less than or equal to the one held, the stage keeps that result out of
    the batch it stores, and replaces the entry of [results] by it all the
    same. *)
Theorem older_answer_replaces_entry ctx now fetcher st req prev res :
  (fetcherAnswer ctx fetcher st).1.2 = None ->
  (fetcherAnswer ctx fetcher st).1.1 !! req = Some res ->
  results W st !! req = Some prev ->
  (ValidUntilTS res ≤ ValidUntilTS prev)%Z ->
  results W (handleFetcherKeys W s ctx now fetcher st).2 !! req = Some res ∧
  ∃ (batch : Results) answer (logs : list LogEntry),
    trace W (handleFetcherKeys W s ctx now fetcher st).2 =
      trace W st
      ++ [EvLog (LogFetching (FetcherName W fetcher) (size (requests W st)));
          EvFetch (FetcherName W fetcher) (WithTimeout ctx (Second * 30)%Z)
            (requests W st) (fetcherAnswer ctx fetcher st).1;
          EvStore ctx batch answer]
      ++ (EvLog <$> logs) ∧
    batch !! req = None.
Proof.
  intros E Ea Hprev Hle. rewrite handleFetcherKeys_run, E. cbn [snd]. split.
  - unfold fetcherMerged. cbn [results]. by rewrite merged_results_map, Ea.
  - exists (storeBatch (results W st) (fetcherAnswer ctx fetcher st).1.1),
      (storeAnswer ctx fetcher st).1.
    assert (∃ logs : list LogEntry,
              storeLog ctx fetcher st
                (results W (merged now
                   (map_to_list (fetcherAnswer ctx fetcher st).1.1)
                   (fetcherAsked ctx fetcher st)))
              = EvLog <$> logs) as [logs Hlogs].
    { unfold storeLog. destruct (storeAnswer ctx fetcher st).1.
      - by eexists [_].
      - destruct (decide _); [by eexists [_]|by exists []]. }
    exists logs. split.
    + unfold fetcherMerged. cbn [trace]. rewrite Hlogs.
      unfold fetcherAsked. cbn [trace]. by rewrite <- app_assoc.
    + apply map_lookup_filter_None. right. intros res' Ea' [_ Hf].
      cbn [fst snd] in Hf. rewrite Hprev in Hf. simpl in Hf.
      assert (res' = res) as -> by congruence. lia.
Qed.

(** C2, as the code has it: when the store that ends a fetcher stage fails,
  [handleFetcherKeys] returns the error of the store, wrapped, and the
  answer of the fetcher stays merged into [results]; the loop over the
  fetchers logs the error and goes on with the fetchers that remain, as it
  does after a failed fetch.  The error of a call that got past the
  database stage is none or that of the final check, whatever the stores
  answered. *)
Theorem store_failure_skips_to_next_fetcher ctx now fetcher rest st e :
  (fetcherAnswer ctx fetcher st).1.2 = None ->
  (storeAnswer ctx fetcher st).1 = Some e ->
  size (requests W st) ≠ 0 ->
  (handleFetcherKeys W s ctx now fetcher st).1 = Some (StoreKeysFailed e) ∧
  (∀ req res,
     (fetcherAnswer ctx fetcher st).1.1 !! req = Some res ->
     results W (handleFetcherKeys W s ctx now fetcher st).2 !! req = Some res) ∧
  fetcherLoop W s ctx now (fetcher :: rest) st =
    fetcherLoop W s ctx now rest
      (log W (LogFailedToRetrieve (StoreKeysFailed e) (FetcherName W fetcher)
                (size (requests W (handleFetcherKeys W s ctx now fetcher st).2)))
         (handleFetcherKeys W s ctx now fetcher st).2).2 ∧
  ∀ callerCtx (reqs : Requests) (w : W) c asked answer,
    EvDatabaseFetch c asked (answer, None)
      ∈ trace W (call W time_Now s callerCtx reqs w).2 ->
    (call W time_Now s callerCtx reqs w).1.2 = None ∨
    ∃ req, is_Some (reqs !! req) ∧
           (call W time_Now s callerCtx reqs w).1.2
           = Some (RequestUnsatisfied (gomatrixserverlib.ServerName req)
                     (gomatrixserverlib.KeyID req)).
Proof.
  intros E Es Hsize.
  assert ((handleFetcherKeys W s ctx now fetcher st).1 = Some (StoreKeysFailed e))
    as Herr.
  { by rewrite handleFetcherKeys_run, E, Es. }
  split; [done|]. split; [|split].
  - intros req res Ea. rewrite handleFetcherKeys_run, E. cbn [snd].
    unfold fetcherMerged. cbn [results]. by rewrite merged_results_map, Ea.
  - cbn [fetcherLoop]. rewrite bind_run. unfold getRequests. cbn [fst snd].
    destruct (decide _); [done|].
    rewrite bind_run, Herr. by rewrite !bind_run.
  - intros callerCtx reqs w c asked answer Edb%call_database_answered.
    destruct (call_completed callerCtx _ _ Edb) as (logs & -> & _).
    cbn [fst snd]. destruct (firstUnsatisfied _ _) as [req|] eqn:Ef; [|by left].
    right. exists req. split; [|done].
    apply firstUnsatisfied_Some in Ef as [Hin _]. by apply elem_of_keys.
Qed.

(** * More on the key resolver *)

(** ** Filtering a map and its list of entries *)

Lemma map_to_list_filter_perm {A} (P : PublicKeyLookupRequest * A -> Prop)
    `{!∀ x, Decision (P x)} (m : gmap PublicKeyLookupRequest A) :
  map_to_list (filter P m) ≡ₚ filter P (map_to_list m).
Proof.
  apply NoDup_Permutation.
  - apply NoDup_map_to_list.
  - apply NoDup_filter, NoDup_map_to_list.
  - intros [i x]. rewrite elem_of_map_to_list, map_lookup_filter_Some.
    rewrite list_elem_of_filter, elem_of_map_to_list. tauto.
Qed.

Lemma filter_fst_length {A} (P : PublicKeyLookupRequest -> Prop)
    `{!∀ x, Decision (P x)} (l : list (PublicKeyLookupRequest * A)) :
  length (filter P l.*1) = length (filter (fun entry => P entry.1) l).
Proof.
  induction l as [|[i x] l IH]; [done|].
  cbn [fmap list_fmap fst]. rewrite !filter_cons. cbn [fst].
  destruct (decide (P i)); simpl; by rewrite IH.
Qed.

(** ** The self-key stage on its own *)

Lemma handleLocalKeys_loop_clock (l : list PublicKeyLookupRequest) st :
  ∃ ts : list Time,
    trace W (forEach l (handleLocalKey W time_Now s) st).2
      = trace W st ++ (EvNow <$> ts) ∧
    length ts = length (filter isSelf l).
Proof.
  revert st. induction l as [|r l IH]; intros st.
  - exists []. by rewrite forEach_nil, app_nil_r.
  - rewrite forEach_cons, handleLocalKey_run, filter_cons. cbn [snd].
    destruct (decide (isSelf r)).
    + match goal with |- context [forEach l _ ?x] => destruct (IH x) as (ts & -> & Hlen) end.
      exists ((time_Now (world W st)).1 :: ts). cbn [trace]. split.
      * by rewrite <- app_assoc.
      * simpl. by rewrite Hlen.
    + apply IH.
Qed.

(** X1: [handleLocalKeys] takes the requests for our own keys, and only
    those, out of [requests], and writes for each of them our own key with a
    validity counted from a reading of the clock; the entries of [results] for
    all other requests stay as they are.  It reads the clock once for every
    request it takes, and does nothing else that can be observed. *)
Theorem handleLocalKeys_takes_own_requests ctx st :
  requests W (handleLocalKeys W time_Now s ctx st).2
    = filter foreign (requests W st) ∧
  (∀ req, ¬ (isSelf req ∧ is_Some (requests W st !! req)) ->
          results W (handleLocalKeys W time_Now s ctx st).2 !! req
          = results W st !! req) ∧
  ∃ ts : list Time,
    trace W (handleLocalKeys W time_Now s ctx st).2 = trace W st ++ (EvNow <$> ts) ∧
    length ts = size (filter (fun entry => isSelf entry.1) (requests W st)) ∧
    ∀ req, isSelf req -> is_Some (requests W st !! req) ->
           ∃ t, t ∈ ts ∧
                results W (handleLocalKeys W time_Now s ctx st).2 !! req
                = Some (selfKeyResult t).
Proof.
  unfold handleLocalKeys. rewrite bind_run. unfold getRequests. cbn [fst snd].
  destruct (handleLocalKeys_loop (map_to_list (requests W st)).*1 st)
    as (ts & Htr & H). cbv zeta in Htr, H.
  split; [|split].
  - apply map_eq. intros req. destruct (H req) as [Hs Hn].
    destruct (decide (isSelf req ∧ req ∈ (map_to_list (requests W st)).*1))
      as [Hd|Hd].
    + destruct (Hs Hd) as [-> _]. symmetry. apply map_lookup_filter_None.
      right. intros ts' _ Hf. apply Hf, Hd.
    + destruct (Hn Hd) as [-> _].
      destruct (requests W st !! req) as [v|] eqn:E; symmetry.
      * apply map_lookup_filter_Some. split; [done|].
        intros Hself. apply Hd. split; [done|]. apply elem_of_keys. by exists v.
      * apply map_lookup_filter_None. by left.
  - intros req Hnot. destruct (H req) as [_ Hn]. apply Hn.
    intros [? Hin]. apply Hnot. split; [done|]. by apply elem_of_keys.
  - exists ts. split; [exact Htr|]. split.
    + destruct (handleLocalKeys_loop_clock (map_to_list (requests W st)).*1 st)
        as (ts' & Htr' & Hlen).
      rewrite Htr in Htr'. apply app_inv_head in Htr'.
      apply (f_equal length) in Htr'. rewrite !length_fmap in Htr'.
      rewrite Htr', Hlen, filter_fst_length.
      rewrite <- length_map_to_list.
      symmetry. apply Permutation_length, map_to_list_filter_perm.
    + intros req Hself Hin. destruct (H req) as [Hs _].
      destruct Hs as (_ & t & Ht & Hr).
      { split; [done|]. by apply elem_of_keys. }
      by exists t.
Qed.

(** ** The database stage on its own *)

Lemma merged_results_union now (answer : Results) st :
  results W (merged now (map_to_list answer) st) = answer ∪ results W st.
Proof.
  apply map_eq. intros req. rewrite merged_results_map, lookup_union.
  destruct (answer !! req), (results W st !! req); done.
Qed.

(** X2: when the database answers without error, [handleDatabaseKeys]
    writes every entry of the answer over [results], valid or not, and takes
    out of [requests] the requests the answer has a key for that is valid at
    [now]; a request answered with a key that is not valid stays.  The fetch
    is all it does to the database: it stores nothing. *)
Theorem handleDatabaseKeys_merges_answer ctx now st (answer : Results) (w' : W) :
  databaseAnswer ctx st = ((answer, None), w') ->
  (handleDatabaseKeys W s ctx now st).1 = None ∧
  results W (handleDatabaseKeys W s ctx now st).2 = answer ∪ results W st ∧
  (∀ req,
     requests W (handleDatabaseKeys W s ctx now st).2 !! req =
       match answer !! req with
       | Some res => if WasValidAt res now true then None
                     else requests W st !! req
       | None => requests W st !! req
       end) ∧
  trace W (handleDatabaseKeys W s ctx now st).2
    = trace W st ++ [EvDatabaseFetch ctx (requests W st) (answer, None)].
Proof.
  intros E. rewrite handleDatabaseKeys_run, E. cbn [fst snd].
  split; [done|]. split; [|split].
  - by rewrite merged_results_union.
  - intros req. by rewrite merged_requests_map.
  - rewrite merged_trace. unfold databaseAsked. cbn [trace]. by rewrite E.
Qed.

(** ** A fetcher that fails *)

(** X3: when a fetcher returns an error, [handleFetcherKeys] returns that
    error as it is, leaves [requests] and [results] untouched whatever map
    came with the error, and issues no store; the loop of [FetchKeys] logs
    the error and goes on to the next fetcher, which is asked, if at all, for
    the same requests. *)
Theorem failed_fetcher_changes_nothing ctx now fetcher rest st e :
  (fetcherAnswer ctx fetcher st).1.2 = Some e ->
  (handleFetcherKeys W s ctx now fetcher st).1 = Some e ∧
  requests W (handleFetcherKeys W s ctx now fetcher st).2 = requests W st ∧
  results W (handleFetcherKeys W s ctx now fetcher st).2 = results W st ∧
  trace W (handleFetcherKeys W s ctx now fetcher st).2
    = trace W st
      ++ [EvLog (LogFetching (FetcherName W fetcher) (size (requests W st)));
          EvFetch (FetcherName W fetcher) (WithTimeout ctx (Second * 30)%Z)
            (requests W st) (fetcherAnswer ctx fetcher st).1] ∧
  (size (requests W st) ≠ 0 ->
   ∃ st1,
     fetcherLoop W s ctx now (fetcher :: rest) st = fetcherLoop W s ctx now rest st1 ∧
     requests W st1 = requests W st ∧
     results W st1 = results W st).
Proof.
  intros E.
  assert (handleFetcherKeys W s ctx now fetcher st
          = (Some e, fetcherAsked ctx fetcher st)) as Hrun.
  { by rewrite handleFetcherKeys_run, E. }
  rewrite Hrun. cbn [fst snd]. repeat split.
  intros Hsize. cbn [fetcherLoop]. rewrite bind_run. unfold getRequests.
  cbn [fst snd]. destruct (decide _); [done|].
  rewrite bind_run, Hrun. cbn [fst snd]. rewrite !bind_run. cbn [fst snd].
  eexists. split; [reflexivity|]. done.
Qed.

(** ** A fetcher that answers *)

Lemma storeLog_is_log ctx fetcher st (known : Results) :
  ∃ logs : list LogEntry, storeLog ctx fetcher st known = EvLog <$> logs.
Proof.
  unfold storeLog. destruct (storeAnswer ctx fetcher st).1.
  - by eexists [_].
  - destruct (decide _); [by eexists [_]|by exists []].
Qed.

Lemma storeBatch_lookup (known answer : Results) req res :
  storeBatch known answer !! req = Some res ↔
    answer !! req = Some res ∧ ¬ isSelf req ∧
    (known !! req = None ∨
     ∃ prev, known !! req = Some prev ∧ (ValidUntilTS prev < ValidUntilTS res)%Z).
Proof.
  unfold storeBatch. rewrite map_lookup_filter_Some.
  unfold staged, fresher. cbn [fst snd]. split.
  - intros (Ha & Hn & Hf). split; [done|]. split; [done|].
    destruct (known !! req) as [prev|]; [right; by exists prev|by left].
  - intros (Ha & Hn & Hf). split; [done|]. split; [done|].
    destruct Hf as [->|(prev & -> & ?)]; done.
Qed.

(** X4: when a fetcher answers without error, [handleFetcherKeys] writes
    every entry of the answer over [results], takes out of [requests] the
    requests answered with a key valid at [now], and issues one store, also
    when there is nothing to store.  The batch stored holds exactly the
    entries of the answer that are not for our own keys and that [results]
    had no entry for before the stage or an entry of strictly smaller
    [ValidUntilTS]; the stage returns the error of the store, wrapped, or
    none. *)
Theorem handleFetcherKeys_merges_and_stages ctx now fetcher st
    (answer : Results) (w' : W) :
  fetcherAnswer ctx fetcher st = ((answer, None), w') ->
  results W (handleFetcherKeys W s ctx now fetcher st).2 = answer ∪ results W st ∧
  (∀ req,
     requests W (handleFetcherKeys W s ctx now fetcher st).2 !! req =
       match answer !! req with
       | Some res => if WasValidAt res now true then None
                     else requests W st !! req
       | None => requests W st !! req
       end) ∧
  ∃ (batch : Results) (stored : option error) (logs : list LogEntry),
    trace W (handleFetcherKeys W s ctx now fetcher st).2 =
      trace W st
      ++ [EvLog (LogFetching (FetcherName W fetcher) (size (requests W st)));
          EvFetch (FetcherName W fetcher) (WithTimeout ctx (Second * 30)%Z)
            (requests W st) (answer, None);
          EvStore ctx batch stored]
      ++ (EvLog <$> logs) ∧
    (handleFetcherKeys W s ctx now fetcher st).1 = StoreKeysFailed <$> stored ∧
    ∀ req res,
      batch !! req = Some res ↔
        answer !! req = Some res ∧ ¬ isSelf req ∧
        (results W st !! req = None ∨
         ∃ prev, results W st !! req = Some prev ∧
                 (ValidUntilTS prev < ValidUntilTS res)%Z).
Proof.
  intros E.
  assert ((fetcherAnswer ctx fetcher st).1.2 = None) as E2 by (by rewrite E).
  rewrite handleFetcherKeys_run, E2. cbn [fst snd]. unfold fetcherMerged.
  cbn [requests results trace]. split; [|split].
  - rewrite merged_results_union. by rewrite E.
  - intros req. rewrite merged_requests_map. by rewrite E.
  - destruct (storeLog_is_log ctx fetcher st
                (results W (merged now
                   (map_to_list (fetcherAnswer ctx fetcher st).1.1)
                   (fetcherAsked ctx fetcher st)))) as [logs ->].
    exists (storeBatch (results W st) answer), (storeAnswer ctx fetcher st).1, logs.
    split; [|split].
    + unfold fetcherAsked. cbn [trace]. rewrite E. cbn [fst snd].
      by rewrite <- app_assoc.
    + done.
    + intros req res. apply storeBatch_lookup.
Qed.

(** ** The order of the fetchers *)

Lemma consulted_app (evs1 evs2 : list Event) :
  consulted (evs1 ++ evs2) = consulted evs1 ++ consulted evs2.
Proof. apply omap_app. Qed.

Lemma consulted_logs (logs : list LogEntry) : consulted (EvLog <$> logs) = [].
Proof. induction logs as [|entry logs IH]; [done|]. simpl. exact IH. Qed.

Lemma consulted_clock (ts : list Time) : consulted (EvNow <$> ts) = [].
Proof. induction ts as [|t ts IH]; [done|]. simpl. exact IH. Qed.

Lemma handleFetcherKeys_consults ctx now fetcher st :
  ∃ evs,
    trace W (handleFetcherKeys W s ctx now fetcher st).2 = trace W st ++ evs ∧
    consulted evs = [FetcherName W fetcher] ∧
    (requests W st ≠ ∅ -> Forall asksNonEmpty evs).
Proof.
  rewrite handleFetcherKeys_run.
  destruct (fetcherAnswer ctx fetcher st).1.2 as [e|] eqn:E; cbn [snd].
  - eexists. split; [done|]. split; [done|]. intros Hne.
    apply Forall_cons_2; [done|]. apply Forall_cons_2; [done|]. apply Forall_nil_2.
  - unfold fetcherMerged. cbn [trace].
    destruct (storeLog_is_log ctx fetcher st
                (results W (merged now
                   (map_to_list (fetcherAnswer ctx fetcher st).1.1)
                   (fetcherAsked ctx fetcher st)))) as [logs ->].
    unfold fetcherAsked. cbn [trace]. rewrite <- app_assoc. cbn [app].
    eexists. split; [done|]. split.
    + simpl. by rewrite consulted_logs.
    + intros Hne. apply Forall_cons_2; [done|]. apply Forall_cons_2; [done|].
      apply Forall_cons_2; [done|]. apply Forall_fmap, Forall_forall. done.
Qed.

Lemma fetcherLoop_consults ctx now (l : list (KeyFetcher W)) st :
  ∃ evs (k : nat),
    trace W (fetcherLoop W s ctx now l st).2 = trace W st ++ evs ∧
    consulted evs = FetcherName W <$> take k l ∧
    Forall asksNonEmpty evs ∧
    (k = length l ∨ requests W (fetcherLoop W s ctx now l st).2 = ∅).
Proof.
  revert st. induction l as [|fetcher rest IH]; intros st.
  - exists [], 0. rewrite app_nil_r. repeat split; [apply Forall_nil_2|by left].
  - cbn [fetcherLoop]. rewrite bind_run. unfold getRequests. cbn [fst snd].
    destruct (decide (size (requests W st) = 0)) as [Hz|Hnz].
    + exists [], 0. rewrite app_nil_r. cbn [ret snd].
      repeat split; [apply Forall_nil_2|]. right. by apply map_size_empty_inv.
    + assert (requests W st ≠ ∅) as Hne.
      { intros H. apply Hnz. by apply map_size_empty_iff. }
      rewrite bind_run.
      destruct (handleFetcherKeys_consults ctx now fetcher st)
        as (evs1 & Ht1 & Hc1 & Hn1).
      specialize (Hn1 Hne).
      destruct (handleFetcherKeys W s ctx now fetcher st) as [[e|] st1];
        cbn [fst snd] in *.
      * rewrite !bind_run. cbn [fst snd].
        match goal with |- context [fetcherLoop W s ctx now rest ?x] =>
          destruct (IH x) as (evs2 & k & Ht2 & Hc2 & Hn2 & Hk) end.
        exists (evs1 ++ [EvLog (LogFailedToRetrieve e (FetcherName W fetcher)
                                   (size (requests W st1)))] ++ evs2), (S k).
        split.
        { rewrite Ht2. unfold log, emit. cbn [snd trace].
          by rewrite Ht1, <- !app_assoc. }
        split.
        { rewrite !consulted_app, Hc1, Hc2. done. }
        split.
        { apply Forall_app. split; [done|]. apply Forall_cons_2; done. }
        destruct Hk as [->|Hk]; [by left|by right].
      * destruct (IH st1) as (evs2 & k & Ht2 & Hc2 & Hn2 & Hk).
        exists (evs1 ++ evs2), (S k).
        split; [by rewrite Ht2, Ht1, <- !app_assoc|]. split.
        { rewrite !consulted_app, Hc1, Hc2. done. }
        split; [by apply Forall_app|].
        destruct Hk as [->|Hk]; [by left|by right].
Qed.

(** X5: a call consults the fetchers in the order of [KeyFetchers], one
    after another from the first, without leaving one out and without asking
    one twice: the fetchers consulted are the first [k] of the list.  No
    fetcher is asked for an empty batch, and the call stops before the end of
    the list only when the database fetch failed, so that no result map is
    returned, or when nothing is left in [requests]. *)
Theorem fetchers_consulted_in_order callerCtx (reqs : Requests) (w : W) :
  ∃ k : nat,
    consulted (trace W (call W time_Now s callerCtx reqs w).2)
      = FetcherName W <$> take k fetchers ∧
    Forall asksNonEmpty (trace W (call W time_Now s callerCtx reqs w).2) ∧
    (k < length fetchers ->
     (call W time_Now s callerCtx reqs w).1.1 = None ∨
     requests W (call W time_Now s callerCtx reqs w).2 = ∅).
Proof.
  destruct (afterLocalKeys_spec reqs w) as (ts & Htr & _).
  destruct (databaseAnswer Background (afterLocalKeys reqs w)).1.2 as [e|] eqn:E.
  - exists 0. rewrite (call_aborted _ _ _ _ E). cbn [fst snd databaseAsked trace].
    rewrite Htr. split; [|split].
    + rewrite consulted_app, consulted_clock. done.
    + apply Forall_app. split; [by apply Forall_fmap_EvNow|].
      apply Forall_cons_2; done.
    + intros _. by left.
  - destruct (call_completed callerCtx _ _ E) as (logs & _ & Hq & _ & Ht).
    rewrite Ht, Hq. unfold afterFetchers.
    destruct (fetcherLoop_consults Background (nowOf w) fetchers
                (afterDatabaseKeys reqs w)) as (evs & k & Hevs & Hc & Hn & Hk).
    exists k. rewrite Hevs, afterDatabaseKeys_trace, Htr. split; [|split].
    + rewrite !consulted_app, consulted_clock, consulted_logs, Hc. simpl.
      by rewrite app_nil_r.
    + repeat (apply Forall_app; split).
      * by apply Forall_fmap_EvNow.
      * apply Forall_cons_2; done.
      * done.
      * by apply Forall_fmap_EvLog.
    + intros Hlt. right. destruct Hk as [->|Hk]; [lia|done].
Qed.

(** ** What is pending and what is known *)

Lemma settles_refl now st : settles now st st.
Proof.
  split.
  - exists []. rewrite app_nil_r. split; [done|]. intros req res ?. by left.
  - done.
  - intros req [v Hv] Hn. congruence.
  - done.
Qed.

Lemma settles_trans now st1 st2 st3 :
  settles now st1 st2 -> settles now st2 st3 -> settles now st1 st3.
Proof.
  intros [(evs1 & Ht1 & Hs1) Hk1 Hr1 Hp1] [(evs2 & Ht2 & Hs2) Hk2 Hr2 Hp2].
  split.
  - exists (evs1 ++ evs2). split; [by rewrite Ht2, Ht1, app_assoc|].
    intros req res H3. destruct (Hs2 req res H3) as [H2|H2].
    + destruct (Hs1 req res H2) as [H1|H1]; [by left|].
      right. apply Exists_app. by left.
    + right. apply Exists_app. by right.
  - intros req H. by apply Hk2, Hk1.
  - intros req Hin Hout.
    destruct (requests W st2 !! req) as [v|] eqn:E.
    + apply Hr2; [by exists v|done].
    + apply Hk2, Hr1; done.
  - intros H. by apply Hp2, Hp1.
Qed.

Lemma settles_quiet now st st' evs :
  requests W st' = requests W st ->
  results W st' = results W st ->
  trace W st' = trace W st ++ evs ->
  settles now st st'.
Proof.
  intros Hq Hr Ht. split.
  - exists evs. split; [done|]. intros req res. rewrite Hr. by left.
  - intros req. by rewrite Hr.
  - intros req [v Hv]. rewrite Hq. congruence.
  - intros H req. rewrite Hq, Hr. apply H.
Qed.

Lemma settles_merge now (answer : Results) st st' evs :
  trace W st' = trace W st ++ evs ->
  (∀ req res, answer !! req = Some res -> Exists (answersWith req res) evs) ->
  (∀ req, results W st' !! req =
            match answer !! req with
            | Some res => Some res
            | None => results W st !! req
            end) ->
  (∀ req, requests W st' !! req =
            match answer !! req with
            | Some res => if WasValidAt res now true then None
                          else requests W st !! req
            | None => requests W st !! req
            end) ->
  settles now st st'.
Proof.
  intros Ht Hev Hr Hq. split.
  - exists evs. split; [done|]. intros req res. rewrite Hr.
    destruct (answer !! req) as [r|] eqn:E; [|by left].
    intros [= <-]. right. by apply Hev.
  - intros req. rewrite Hr. by destruct (answer !! req).
  - intros req [v Hv]. rewrite Hq, Hr, Hv.
    destruct (answer !! req) as [r|]; [done|]. congruence.
  - intros H req. rewrite Hq, Hr.
    destruct (answer !! req) as [r|]; [|apply H].
    destruct (WasValidAt r now true) eqn:Ev; [by intros [? ?]|done].
Qed.

Lemma handleFetcherKeys_settles ctx now fetcher st :
  settles now st (handleFetcherKeys W s ctx now fetcher st).2.
Proof.
  rewrite handleFetcherKeys_run.
  destruct (fetcherAnswer ctx fetcher st) as [[answer err] w'] eqn:E.
  cbn [fst snd]. destruct err as [e|]; cbn [snd].
  - by eapply settles_quiet.
  - eapply (settles_merge now answer).
    + unfold fetcherMerged, fetcherAsked. cbn [trace].
      rewrite <- app_assoc. done.
    + intros req res Ha. cbn [app]. apply Exists_cons_tl, Exists_cons_hd.
      rewrite E. done.
    + intros req. unfold fetcherMerged. cbn [results].
      rewrite merged_results_map. by rewrite E.
    + intros req. unfold fetcherMerged. cbn [requests].
      rewrite merged_requests_map. by rewrite E.
Qed.

Lemma fetcherLoop_settles ctx now (l : list (KeyFetcher W)) st :
  settles now st (fetcherLoop W s ctx now l st).2.
Proof.
  revert st. induction l as [|fetcher rest IH]; intros st.
  - apply settles_refl.
  - cbn [fetcherLoop]. rewrite bind_run. unfold getRequests. cbn [fst snd].
    destruct (decide _); [apply settles_refl|].
    rewrite bind_run.
    pose proof (handleFetcherKeys_settles ctx now fetcher st) as H1.
    destruct (handleFetcherKeys W s ctx now fetcher st) as [[e|] st1];
      cbn [fst snd] in *.
    + rewrite !bind_run. cbn [fst snd].
      eapply settles_trans; [exact H1|].
      eapply settles_trans; [|apply IH].
      by eapply settles_quiet.
    + eapply settles_trans; [exact H1|apply IH].
Qed.

Lemma afterDatabaseKeys_settles (reqs : Requests) (w : W) :
  (databaseAnswer Background (afterLocalKeys reqs w)).1.2 = None ->
  settles (nowOf w) (afterLocalKeys reqs w) (afterDatabaseKeys reqs w).
Proof.
  intros E.
  eapply (settles_merge _ (databaseAnswer Background (afterLocalKeys reqs w)).1.1).
  - apply afterDatabaseKeys_trace.
  - intros req res Ha. apply Exists_cons_hd.
    destruct (databaseAnswer Background (afterLocalKeys reqs w)).1 as [answer err].
    cbn [fst snd] in *. by subst err.
  - intros req. apply afterDatabaseKeys_results.
  - intros req. unfold afterDatabaseKeys. by rewrite merged_requests_map.
Qed.

(** From the return of [handleLocalKeys] to the return of [FetchKeys]. *)
Lemma call_settles callerCtx (reqs : Requests) (w : W) :
  settles (nowOf w) (afterLocalKeys reqs w) (call W time_Now s callerCtx reqs w).2.
Proof.
  destruct (databaseAnswer Background (afterLocalKeys reqs w)).1.2 as [e|] eqn:E.
  - rewrite (call_aborted _ _ _ _ E). cbn [snd]. by eapply settles_quiet.
  - destruct (call_completed callerCtx _ _ E) as (logs & _ & Hq & Hr & Ht).
    eapply settles_trans; [by apply afterDatabaseKeys_settles|].
    eapply settles_trans; [apply fetcherLoop_settles|].
    eapply settles_quiet; [exact Hq|exact Hr|exact Ht].
Qed.

(** X6: when a call returns, every request that is still in the map of the
    caller has no entry in [results], or one that is not valid at [now]; and
    every request of the batch that is no longer in that map has an entry.
    So the map left to the caller names the keys that are missing or stale. *)
Theorem pending_requests_lack_a_valid_key callerCtx (reqs : Requests) (w : W) :
  (∀ req,
     is_Some (requests W (call W time_Now s callerCtx reqs w).2 !! req) ->
     stale (nowOf w) (results W (call W time_Now s callerCtx reqs w).2 !! req)) ∧
  (∀ req,
     is_Some (reqs !! req) ->
     requests W (call W time_Now s callerCtx reqs w).2 !! req = None ->
     is_Some (results W (call W time_Now s callerCtx reqs w).2 !! req)).
Proof.
  destruct (call_settles callerCtx reqs w) as [_ Hkept Hremoved Hpending].
  destruct (afterLocalKeys_spec reqs w) as (ts & _ & Hloc).
  split.
  - apply Hpending. intros req [v Hv].
    destruct (Hloc req) as [Hs Hn].
    destruct (decide (isSelf req ∧ is_Some (reqs !! req))) as [Hd|Hd].
    + destruct (Hs Hd) as [Hq _]. congruence.
    + destruct (Hn Hd) as [_ ->]. done.
  - intros req Hin Hgone. destruct (Hloc req) as [Hs Hn].
    destruct (decide (isSelf req ∧ is_Some (reqs !! req))) as [Hd|Hd].
    + apply Hkept. destruct (Hs Hd) as (_ & t & _ & ->). by eexists.
    + apply Hremoved; [|done]. destruct (Hn Hd) as [-> _]. done.
Qed.

(** X7: every entry of the result map that a call returns has a source in
    the call: it is the entry that the self-key stage made for a request of
    the batch for one of our own keys, or it is an entry of an answer that
    the database or a fetcher gave without error. *)
Theorem returned_entries_have_a_source callerCtx (reqs : Requests) (w : W)
    (returned : Results) req res :
  (call W time_Now s callerCtx reqs w).1.1 = Some returned ->
  returned !! req = Some res ->
  (isSelf req ∧ is_Some (reqs !! req) ∧
   ∃ t, EvNow t ∈ trace W (call W time_Now s callerCtx reqs w).2 ∧
        res = selfKeyResult t) ∨
  Exists (answersWith req res) (trace W (call W time_Now s callerCtx reqs w).2).
Proof.
  intros Hret Hres.
  destruct (databaseAnswer Background (afterLocalKeys reqs w)).1.2 as [e|] eqn:E.
  { rewrite (call_aborted _ _ _ _ E) in Hret. discriminate Hret. }
  destruct (call_completed callerCtx _ _ E) as (logs & Hout & _ & Hr & _).
  rewrite Hout in Hret. cbn [fst] in Hret. injection Hret as <-.
  rewrite <- Hr in Hres.
  destruct (call_settles callerCtx reqs w) as [(evs & Ht & Hsrc) _ _ _].
  destruct (Hsrc req res Hres) as [Hloc|Hex].
  - left. destruct (afterLocalKeys_spec reqs w) as (ts & Hts & Hspec).
    destruct (Hspec req) as [Hs Hn].
    destruct (decide (isSelf req ∧ is_Some (reqs !! req))) as [Hd|Hd].
    + destruct (Hs Hd) as (_ & t & Hin & Hr'). destruct Hd as [? ?].
      split; [done|]. split; [done|]. exists t. split; [|congruence].
      rewrite Ht, Hts. apply elem_of_app. left.
      apply list_elem_of_fmap. exists t. split; [done|by right].
    + destruct (Hn Hd) as [_ Hnone]. congruence.
  - right. rewrite Ht. apply Exists_app. by right.
Qed.

(** ** What the database is asked *)

Lemma afterLocalKeys_requests (reqs : Requests) (w : W) :
  requests W (afterLocalKeys reqs w) = filter foreign reqs.
Proof.
  apply map_eq. intros req.
  destruct (afterLocalKeys_spec reqs w) as (ts & _ & H).
  destruct (H req) as [Hs Hn].
  destruct (decide (isSelf req ∧ is_Some (reqs !! req))) as [Hd|Hd].
  - destruct (Hs Hd) as [-> _]. symmetry. apply map_lookup_filter_None.
    right. intros v _ Hf. apply Hf, Hd.
  - destruct (Hn Hd) as [-> _]. destruct (reqs !! req) as [v|] eqn:E; symmetry.
    + apply map_lookup_filter_Some. split; [done|].
      intros Hself. apply Hd. split; [done|by exists v].
    + apply map_lookup_filter_None. by left.
Qed.

Lemma databaseBatches_app (evs1 evs2 : list Event) :
  databaseBatches (evs1 ++ evs2) = databaseBatches evs1 ++ databaseBatches evs2.
Proof. apply omap_app. Qed.

Lemma databaseBatches_clock (ts : list Time) : databaseBatches (EvNow <$> ts) = [].
Proof. induction ts as [|t ts IH]; [done|]. simpl. exact IH. Qed.

Lemma databaseBatches_logs (logs : list LogEntry) :
  databaseBatches (EvLog <$> logs) = [].
Proof. induction logs as [|entry logs IH]; [done|]. simpl. exact IH. Qed.

Lemma databaseBatches_stage ctx (pending : Requests) (evs : list Event) :
  Forall (stageEvent ctx pending) evs -> databaseBatches evs = [].
Proof.
  induction 1 as [|ev evs Hev _ IH]; [done|].
  destruct ev as [t|c asked a|name c asked a|c batch a|entry]; try done; exact IH.
Qed.

(** X8: a call fetches from the database exactly once, and the batch it
    asks for is the batch of its caller without the requests for our own
    keys; this is so as well when that leaves nothing to ask for. *)
Theorem database_asked_once_for_foreign_requests callerCtx (reqs : Requests) (w : W) :
  databaseBatches (trace W (call W time_Now s callerCtx reqs w).2)
    = [filter foreign reqs].
Proof.
  destruct (afterLocalKeys_spec reqs w) as (ts & Htr & _).
  destruct (databaseAnswer Background (afterLocalKeys reqs w)).1.2 as [e|] eqn:E.
  - rewrite (call_aborted _ _ _ _ E). cbn [snd databaseAsked trace].
    rewrite Htr, databaseBatches_app, databaseBatches_clock.
    simpl. by rewrite afterLocalKeys_requests.
  - destruct (call_completed callerCtx _ _ E) as (logs & _ & _ & _ & ->).
    destruct (afterFetchers_cascades reqs w) as [_ (evs & -> & Hevs & _)].
    rewrite afterDatabaseKeys_trace, Htr.
    rewrite !databaseBatches_app, databaseBatches_clock, databaseBatches_logs.
    rewrite (databaseBatches_stage _ _ _ Hevs). simpl.
    by rewrite afterLocalKeys_requests.
Qed.

(** ** Nothing left to fetch *)

Lemma call_database_asked callerCtx (reqs : Requests) (w : W) c asked answer :
  EvDatabaseFetch c asked answer ∈ trace W (call W time_Now s callerCtx reqs w).2 ->
  asked = requests W (afterLocalKeys reqs w).
Proof.
  destruct (afterLocalKeys_spec reqs w) as (ts & Htr & _).
  assert (∀ l : list Time, EvDatabaseFetch c asked answer ∉ EvNow <$> l) as Hnow.
  { intros l H. apply list_elem_of_fmap in H as (t & ? & _). done. }
  destruct (databaseAnswer Background (afterLocalKeys reqs w)).1.2 as [e|] eqn:E.
  - rewrite (call_aborted _ _ _ _ E). cbn [snd databaseAsked trace]. rewrite Htr.
    intros H. apply elem_of_app in H as [H|H]; [by apply Hnow in H|].
    apply list_elem_of_singleton in H. congruence.
  - destruct (call_completed callerCtx _ _ E) as (logs & _ & _ & _ & ->).
    destruct (afterFetchers_cascades reqs w) as [_ (evs & -> & Hevs & _)].
    rewrite afterDatabaseKeys_trace, Htr. intros H.
    apply elem_of_app in H as [H|H].
    + apply elem_of_app in H as [H|H].
      * apply elem_of_app in H as [H|H]; [by apply Hnow in H|].
        apply list_elem_of_singleton in H. congruence.
      * rewrite Forall_forall in Hevs. by apply Hevs in H.
    + apply list_elem_of_fmap in H as (entry & ? & _). done.
Qed.

Lemma fetcherLoop_idle ctx now (l : list (KeyFetcher W)) st :
  requests W st = ∅ -> fetcherLoop W s ctx now l st = (tt, st).
Proof.
  intros Hq. destruct l as [|fetcher rest]; [done|].
  cbn [fetcherLoop]. rewrite bind_run. unfold getRequests. cbn [fst snd].
  destruct (decide _) as [|Hnz]; [done|]. destruct Hnz.
  by rewrite Hq, map_size_empty.
Qed.

(** X9: when the database answers every request it is asked for with a key
    that is valid at [now], the call consults no fetcher and stores nothing,
    however many fetchers are configured; it returns a result map with an
    entry for every request of the batch and no error, and leaves the map of
    its caller empty. *)
Theorem valid_database_answers_spare_the_fetchers callerCtx (reqs : Requests)
    (w : W) c (asked : Requests) (answer : Results) :
  EvDatabaseFetch c asked (answer, None)
    ∈ trace W (call W time_Now s callerCtx reqs w).2 ->
  (∀ req, is_Some (asked !! req) ->
          ∃ res, answer !! req = Some res ∧ WasValidAt res (nowOf w) true = true) ->
  Forall (fun ev => ¬ fetchOrStore ev)
    (trace W (call W time_Now s callerCtx reqs w).2) ∧
  requests W (call W time_Now s callerCtx reqs w).2 = ∅ ∧
  ∃ returned : Results,
    (call W time_Now s callerCtx reqs w).1 = (Some returned, None) ∧
    ∀ req, is_Some (reqs !! req) -> is_Some (returned !! req).
Proof.
  intros Hin Hvalid.
  pose proof (call_database_asked _ _ _ _ _ _ Hin) as ->.
  pose proof (call_database_event _ _ _ _ _ _ Hin) as Hans.
  assert ((databaseAnswer Background (afterLocalKeys reqs w)).1.2 = None) as E.
  { by rewrite <- Hans. }
  assert ((databaseAnswer Background (afterLocalKeys reqs w)).1.1 = answer) as Ea.
  { by rewrite <- Hans. }
  assert (requests W (afterDatabaseKeys reqs w) = ∅) as Hempty.
  { apply map_empty. intros req. unfold afterDatabaseKeys.
    rewrite merged_requests_map, Ea. cbn [databaseAsked requests].
    destruct (requests W (afterLocalKeys reqs w) !! req) as [v|] eqn:Eq.
    - destruct (Hvalid req) as (res & -> & ->); [by rewrite Eq|done].
    - destruct (answer !! req) as [res|]; [|done]. by destruct (WasValidAt _ _ _). }
  assert (afterFetchers reqs w = afterDatabaseKeys reqs w) as Hidle.
  { unfold afterFetchers. by rewrite fetcherLoop_idle. }
  assert (∀ req, is_Some (reqs !! req) ->
                 is_Some (results W (afterDatabaseKeys reqs w) !! req)) as Hall.
  { intros req Hreq. rewrite afterDatabaseKeys_results, Ea.
    destruct (afterLocalKeys_spec reqs w) as (ts & _ & Hloc).
    destruct (Hloc req) as [Hs Hn].
    destruct (decide (isSelf req ∧ is_Some (reqs !! req))) as [Hd|Hd].
    - destruct (Hs Hd) as (_ & t & _ & ->). destruct (answer !! req); by eexists.
    - destruct (Hn Hd) as [Hq _].
      destruct (Hvalid req) as (res & -> & _); [by rewrite Hq|by eexists]. }
  assert (firstUnsatisfied (map_to_list reqs).*1 (results W (afterFetchers reqs w))
          = None) as Hnone.
  { apply firstUnsatisfied_None. intros req Hreq. rewrite Hidle.
    by apply Hall, elem_of_keys. }
  rewrite call_run, E. cbv zeta. rewrite Hnone. cbn [fst snd].
  rewrite Hidle. split; [|split; [done|]].
  - rewrite afterDatabaseKeys_trace.
    destruct (afterLocalKeys_spec reqs w) as (ts & -> & _).
    apply Forall_app. split.
    + apply Forall_fmap_EvNow. intros t. simpl. tauto.
    + apply Forall_cons_2; [simpl; tauto|apply Forall_nil_2].
  - eexists. split; [done|]. exact Hall.
Qed.

Lemma afterLocalKeys_empty (w : W) : afterLocalKeys ∅ w = entered ∅ w.
Proof.
  unfold afterLocalKeys, handleLocalKeys. rewrite bind_run.
  unfold getRequests. cbn [fst snd entered requests].
  by rewrite map_to_list_empty.
Qed.

(** X10: for an empty batch a call still fetches from the database, for
    nothing; it consults no fetcher, and it returns what the database
    answered: its error and no result map, or else its answer, whatever is
    in it, and no error. *)
Theorem empty_batch_returns_database_answer callerCtx (w : W) :
  consulted (trace W (call W time_Now s callerCtx ∅ w).2) = [] ∧
  (∀ e, (databaseAnswer Background (entered ∅ w)).1.2 = Some e ->
        (call W time_Now s callerCtx ∅ w).1 = (None, Some e)) ∧
  ((databaseAnswer Background (entered ∅ w)).1.2 = None ->
   (call W time_Now s callerCtx ∅ w).1
   = (Some (databaseAnswer Background (entered ∅ w)).1.1, None)).
Proof.
  rewrite call_run, afterLocalKeys_empty.
  destruct (databaseAnswer Background (entered ∅ w)).1.2 as [e|] eqn:E.
  - cbn [fst snd databaseAsked trace entered]. split; [done|].
    split; [by intros ? [= <-]|done].
  - assert (requests W (afterDatabaseKeys ∅ w) = ∅) as Hempty.
    { apply map_empty. intros req. unfold afterDatabaseKeys.
      rewrite merged_requests_map, afterLocalKeys_empty.
      cbn [databaseAsked entered requests]. rewrite lookup_empty.
      destruct (_ !! req) as [res|]; [|done]. by destruct (WasValidAt _ _ _). }
    assert (afterFetchers ∅ w = afterDatabaseKeys ∅ w) as Hidle.
    { unfold afterFetchers. by rewrite fetcherLoop_idle. }
    cbv zeta. rewrite map_to_list_empty. cbn [fmap list_fmap firstUnsatisfied].
    cbn [fst snd]. rewrite Hidle. split; [|split; [done|]].
    + rewrite afterDatabaseKeys_trace, afterLocalKeys_empty. done.
    + intros _. f_equal. f_equal. unfold afterDatabaseKeys.
      rewrite merged_results_union, afterLocalKeys_empty.
      cbn [databaseAsked entered results]. by rewrite (right_id_L ∅ (∪)).
Qed.

(** ** A key the database cannot vouch for *)

Lemma fetcherLoop_first ctx now fetcher rest st :
  size (requests W st) ≠ 0 ->
  ∃ evs,
    trace W (fetcherLoop W s ctx now (fetcher :: rest) st).2 =
      trace W st
      ++ EvLog (LogFetching (FetcherName W fetcher) (size (requests W st)))
         :: EvFetch (FetcherName W fetcher) (fetcherCtx ctx) (requests W st)
              (fetcherAnswer ctx fetcher st).1
         :: evs.
Proof.
  intros Hnz. cbn [fetcherLoop]. rewrite bind_run. unfold getRequests.
  cbn [fst snd]. destruct (decide _); [done|]. rewrite bind_run.
  assert (∃ evs1, trace W (handleFetcherKeys W s ctx now fetcher st).2
                  = trace W (fetcherAsked ctx fetcher st) ++ evs1) as [evs1 H1].
  { rewrite handleFetcherKeys_run.
    destruct (fetcherAnswer ctx fetcher st).1.2; cbn [snd].
    - exists []. by rewrite app_nil_r.
    - unfold fetcherMerged. cbn [trace]. by eexists. }
  destruct (handleFetcherKeys W s ctx now fetcher st) as [[e|] st1];
    cbn [fst snd] in *.
  - rewrite !bind_run. cbn [fst snd].
    match goal with |- context [fetcherLoop W s ctx now rest ?x] =>
      destruct (fetcherLoop_cascades ctx now rest x) as [_ (evs2 & -> & _)] end.
    unfold log, emit. cbn [snd trace]. rewrite H1. unfold fetcherAsked.
    cbn [trace]. rewrite <- !app_assoc. cbn [app]. by eexists.
  - destruct (fetcherLoop_cascades ctx now rest st1) as [_ (evs2 & -> & _)].
    rewrite H1. unfold fetcherAsked. cbn [trace].
    rewrite <- !app_assoc. cbn [app]. by eexists.
Qed.

(** X11: a foreign request of the batch for which the database has no key,
    or a key that is not valid at [now], is passed on: the first fetcher of
    the list is asked for it on the background context with a timeout of 30
    seconds. *)
Theorem unanswered_request_reaches_first_fetcher callerCtx (reqs : Requests)
    (w : W) c (asked : Requests) (answer : Results) req fetcher rest :
  fetchers = fetcher :: rest ->
  EvDatabaseFetch c asked (answer, None)
    ∈ trace W (call W time_Now s callerCtx reqs w).2 ->
  is_Some (reqs !! req) ->
  ¬ isSelf req ->
  stale (nowOf w) (answer !! req) ->
  ∃ (asked' : Requests) answer',
    EvFetch (FetcherName W fetcher) (WithTimeout Background (Second * 30)%Z)
      asked' answer'
      ∈ trace W (call W time_Now s callerCtx reqs w).2 ∧
    asked' !! req = reqs !! req.
Proof.
  intros Hf Hin Hreq Hforeign Hstale.
  pose proof (call_database_event _ _ _ _ _ _ Hin) as Hans.
  assert ((databaseAnswer Background (afterLocalKeys reqs w)).1.2 = None) as E.
  { by rewrite <- Hans. }
  assert ((databaseAnswer Background (afterLocalKeys reqs w)).1.1 = answer) as Ea.
  { by rewrite <- Hans. }
  assert (requests W (afterDatabaseKeys reqs w) !! req = reqs !! req) as Hq.
  { unfold afterDatabaseKeys. rewrite merged_requests_map, Ea.
    cbn [databaseAsked requests]. rewrite afterLocalKeys_requests.
    assert (filter foreign reqs !! req = reqs !! req) as ->.
    { destruct Hreq as [v Hv]. rewrite Hv. by apply map_lookup_filter_Some. }
    unfold stale in Hstale. destruct (answer !! req) as [res|]; [|done].
    by rewrite Hstale. }
  assert (size (requests W (afterDatabaseKeys reqs w)) ≠ 0) as Hnz.
  { intros Hz. apply map_size_empty_inv in Hz. rewrite Hz, lookup_empty in Hq.
    destruct Hreq as [v Hv]. congruence. }
  destruct (call_completed callerCtx _ _ E) as (logs & _ & _ & _ & ->).
  unfold afterFetchers. rewrite Hf.
  destruct (fetcherLoop_first Background (nowOf w) fetcher rest _ Hnz)
    as (evs & ->).
  eexists _, _. split; [|exact Hq].
  apply elem_of_app. left. apply elem_of_app. right.
  apply list_elem_of_further, list_elem_of_here.
Qed.

End ResolverFacts.

(** * Properties of the key-change consumer *)

Section ConsumerFacts.

Import KeyChange.

Variable W : Type.
Variable Unmarshal : list Byte.byte -> api.DeviceMessage * option error.
Variable QuerySharedUsers :
  Context -> string -> W -> (gmap string Z * option error) * W.

Abbreviation CState := (KeyChange.State W).

Implicit Types (st : CState) (msg : sarama.ConsumerMessage).

Lemma notify_loop posUpdate (subject : string) (l : list string) st :
  forEach l (fun userID => OnNewKeyChange W posUpdate userID subject) st =
    (tt, {| partitionToOffset := partitionToOffset W st;
            world := world W st;
            trace := trace W st
                     ++ ((fun userID => EvOnNewKeyChange posUpdate userID subject)
                           <$> l) |}).
Proof.
  revert st. induction l as [|u l IH]; intros st.
  - rewrite forEach_nil. cbn [fmap list_fmap]. rewrite app_nil_r. by destruct st.
  - rewrite forEach_cons, IH. unfold OnNewKeyChange, emit.
    cbn [fst snd partitionToOffset world trace fmap list_fmap].
    by rewrite <- app_assoc.
Qed.

Lemma onMessage_run msg st :
  onMessage W Unmarshal QuerySharedUsers msg st =
    ((onMessageBody W Unmarshal QuerySharedUsers msg st).1,
     {| partitionToOffset :=
          <[sarama.Partition msg := sarama.Offset msg]>
            (partitionToOffset W (onMessageBody W Unmarshal QuerySharedUsers msg st).2);
        world := world W (onMessageBody W Unmarshal QuerySharedUsers msg st).2;
        trace := trace W (onMessageBody W Unmarshal QuerySharedUsers msg st).2 |}).
Proof. unfold onMessage. by rewrite !bind_run. Qed.

Lemma onMessageBody_run msg st :
  onMessageBody W Unmarshal QuerySharedUsers msg st =
    let output := (Unmarshal (sarama.Value msg)).1 in
    let answer := QuerySharedUsers Background (api.UserID output) (world W st) in
    let posUpdate :=
      {| types.DeviceListPosition :=
           {| types.Partition := sarama.Partition msg;
              types.Offset := sarama.Offset msg |} |} in
    match (Unmarshal (sarama.Value msg)).2 with
    | Some e =>
        (Some e, {| partitionToOffset := partitionToOffset W st;
                    world := world W st;
                    trace := trace W st ++ [EvLog (LogUnmarshalFailed e)] |})
    | None =>
        match answer.1.2 with
        | Some e =>
            (Some e,
             {| partitionToOffset := partitionToOffset W st;
                world := answer.2;
                trace := trace W st
                         ++ [EvQuerySharedUsers Background (api.UserID output) answer.1;
                             EvLog (LogQuerySharedUsersFailed e)] |})
        | None =>
            (None,
             {| partitionToOffset := partitionToOffset W st;
                world := answer.2;
                trace := trace W st
                         ++ EvQuerySharedUsers Background (api.UserID output) answer.1
                            :: ((fun userID =>
                                   EvOnNewKeyChange posUpdate userID (api.UserID output))
                                  <$> (map_to_list
                                         (<[api.UserID output := 1%Z]> answer.1.1)).*1) |})
        end
    end.
Proof.
  unfold onMessageBody. cbv zeta.
  destruct (Unmarshal (sarama.Value msg)) as [output [e|]]; cbn [fst snd].
  - by rewrite bind_run.
  - rewrite bind_run. unfold querySharedUsers.
    destruct (QuerySharedUsers Background (api.UserID output) (world W st))
      as [[users [e|]] w']; cbn [fst snd].
    + rewrite bind_run. unfold log, emit.
      cbn [fst snd ret partitionToOffset world trace].
      by rewrite <- app_assoc.
    + rewrite bind_run, notify_loop.
      cbn [fst snd ret partitionToOffset world trace].
      by rewrite <- app_assoc.
Qed.

(** C9, as the code has it: for a message that decodes, the consumer asks
    the room server for the users who share a room with the changed user.
    When the query succeeds, it calls the notifier with the set that comes
    back, once for every user of the set and once for the changed user,
    whether the set has that user or not, and every call carries the
    partition and the offset of the message as position and the changed user
    as subject.  When the query fails, the consumer logs the error and
    returns it, and the notifier is not called, not for the changed user
    either. *)
Theorem key_change_notifies_sharing_users msg st output :
  Unmarshal (sarama.Value msg) = (output, None) ->
  (∃ rest,
     trace W (onMessage W Unmarshal QuerySharedUsers msg st).2 =
       trace W st
       ++ EvQuerySharedUsers Background (api.UserID output)
            (QuerySharedUsers Background (api.UserID output) (world W st)).1
          :: rest) ∧
  (∀ (users : gmap string Z) e,
     (QuerySharedUsers Background (api.UserID output) (world W st)).1
       = (users, Some e) ->
     onMessage W Unmarshal QuerySharedUsers msg st =
       (Some e,
        {| partitionToOffset :=
             <[sarama.Partition msg := sarama.Offset msg]> (partitionToOffset W st);
           world := (QuerySharedUsers Background (api.UserID output) (world W st)).2;
           trace :=
             trace W st
             ++ [EvQuerySharedUsers Background (api.UserID output) (users, Some e);
                 EvLog (LogQuerySharedUsersFailed e)] |})) ∧
  ∀ users : gmap string Z,
    (QuerySharedUsers Background (api.UserID output) (world W st)).1
      = (users, None) ->
    ∃ notified : list string,
      onMessage W Unmarshal QuerySharedUsers msg st =
        (None,
         {| partitionToOffset :=
              <[sarama.Partition msg := sarama.Offset msg]> (partitionToOffset W st);
            world := (QuerySharedUsers Background (api.UserID output) (world W st)).2;
            trace :=
              trace W st
              ++ EvQuerySharedUsers Background (api.UserID output) (users, None)
                 :: ((fun userID =>
                        EvOnNewKeyChange
                          {| types.DeviceListPosition :=
                               {| types.Partition := sarama.Partition msg;
                                  types.Offset := sarama.Offset msg |} |}
                          userID (api.UserID output))
                       <$> notified) |}) ∧
      NoDup notified ∧
      ∀ userID, userID ∈ notified ↔
                  userID = api.UserID output ∨ is_Some (users !! userID).
Proof.
  intros Eu. split; [|split].
  - rewrite onMessage_run, onMessageBody_run. cbv zeta. rewrite Eu.
    cbn [fst snd trace].
    destruct (QuerySharedUsers Background (api.UserID output) (world W st)).1.2;
      cbn [trace]; eauto.
  - intros users e Eq.
    rewrite onMessage_run, onMessageBody_run. cbv zeta. rewrite Eu.
    cbn [fst snd]. rewrite Eq. done.
  - intros users Eq.
    exists (map_to_list (<[api.UserID output := 1%Z]> users)).*1.
    split; [|split].
    + rewrite onMessage_run, onMessageBody_run. cbv zeta. rewrite Eu.
      cbn [fst snd]. rewrite Eq. done.
    + apply NoDup_fst_map_to_list.
    + intros userID. rewrite list_elem_of_fmap. split.
      * intros ([u v] & -> & Huv). apply elem_of_map_to_list in Huv.
        cbn [fst]. destruct (decide (u = api.UserID output)) as [->|Hne]; [by left|].
        right. rewrite lookup_insert_ne in Huv by done. by exists v.
      * intros H.
        assert (is_Some (<[api.UserID output := 1%Z]> users !! userID)) as [v Hv].
        { apply lookup_insert_is_Some. destruct H as [->|H]; [by left|].
          destruct (decide (api.UserID output = userID)); [by left|by right]. }
        exists (userID, v). split; [done|]. by apply elem_of_map_to_list.
Qed.

(** C10: whatever becomes of a message, the offset recorded for its
    partition is its offset when [onMessage] returns, and nothing else in
    the offset map changes; this holds as well when the message does not
    decode and when the query for the sharing users fails, the two cases in
    which [onMessage] returns the error. *)
Theorem failed_message_advances_offset msg st :
  partitionToOffset W (onMessage W Unmarshal QuerySharedUsers msg st).2
    = <[sarama.Partition msg := sarama.Offset msg]> (partitionToOffset W st) ∧
  (∀ e, (Unmarshal (sarama.Value msg)).2 = Some e ->
        (onMessage W Unmarshal QuerySharedUsers msg st).1 = Some e) ∧
  (∀ e, (Unmarshal (sarama.Value msg)).2 = None ->
        (QuerySharedUsers Background
           (api.UserID (Unmarshal (sarama.Value msg)).1) (world W st)).1.2 = Some e ->
        (onMessage W Unmarshal QuerySharedUsers msg st).1 = Some e).
Proof.
  rewrite onMessage_run, onMessageBody_run. cbv zeta. cbn [fst snd partitionToOffset].
  split; [|split].
  - destruct (Unmarshal (sarama.Value msg)).2; [done|].
    by destruct (QuerySharedUsers _ _ _).1.2.
  - by intros e ->.
  - by intros e -> ->.
Qed.

(** * More on the key-change consumer *)

(** ** Offsets recorded one after the other *)

Lemma recorded_app (l1 l2 : list (Z * Z)) (m : gmap Z Z) :
  recorded (l1 ++ l2) m = recorded l2 (recorded l1 m).
Proof. apply foldl_app. Qed.

Lemma recorded_absent (p : Z) (l : list (Z * Z)) (m : gmap Z Z) :
  (∀ entry, entry ∈ l -> entry.1 ≠ p) -> recorded l m !! p = m !! p.
Proof.
  revert m. induction l as [|entry l IH]; intros m Hl; [done|].
  cbn [recorded foldl]. fold (recorded l (<[entry.1:=entry.2]> m)).
  rewrite IH.
  - apply lookup_insert_ne, Hl, list_elem_of_here.
  - intros entry' Hin. by apply Hl, list_elem_of_further.
Qed.

Lemma recorded_last (before after : list (Z * Z)) (entry : Z * Z) (m : gmap Z Z) :
  (∀ entry', entry' ∈ after -> entry'.1 ≠ entry.1) ->
  recorded (before ++ entry :: after) m !! entry.1 = Some entry.2.
Proof.
  intros Hafter. rewrite recorded_app. cbn [recorded foldl].
  fold (recorded after (<[entry.1:=entry.2]> (recorded before m))).
  rewrite recorded_absent; [|done]. apply lookup_insert_eq.
Qed.

(** ** Starting the consumer *)

Variable StartOffsets : W -> (list internal.PartitionOffset * option error) * W.

Lemma setOffset_loop (l : list internal.PartitionOffset) st :
  forEach l (fun o => setOffset W (internal.Partition o) (internal.Offset o)) st =
    (tt, {| partitionToOffset :=
              recorded ((fun o => (internal.Partition o, internal.Offset o)) <$> l)
                (partitionToOffset W st);
            world := world W st;
            trace := trace W st |}).
Proof.
  revert st. induction l as [|o l IH]; intros st.
  - rewrite forEach_nil. by destruct st.
  - rewrite forEach_cons, IH. done.
Qed.

Lemma Start_run st :
  Start W StartOffsets st =
    ((StartOffsets (world W st)).1.2,
     {| partitionToOffset :=
          recorded ((fun o => (internal.Partition o, internal.Offset o))
                      <$> (StartOffsets (world W st)).1.1)
            (partitionToOffset W st);
        world := (StartOffsets (world W st)).2;
        trace := trace W st |}).
Proof.
  unfold Start. rewrite bind_run. unfold startOffsets.
  destruct (StartOffsets (world W st)) as [[offsets err] w']. cbn [fst snd].
  by rewrite bind_run, setOffset_loop.
Qed.

(** X12: [Start] records the stored offsets whether or not reading them
    failed, and returns the error of the read as it is.  The offsets are
    recorded in the order of the list: a partition that the list does not
    name keeps the offset it had, and a partition that it names gets the
    offset of its last entry.  Nobody is notified and nothing is logged. *)
Theorem Start_records_offsets_then_returns_error st :
  (Start W StartOffsets st).1 = (StartOffsets (world W st)).1.2 ∧
  world W (Start W StartOffsets st).2 = (StartOffsets (world W st)).2 ∧
  trace W (Start W StartOffsets st).2 = trace W st ∧
  (∀ p, (∀ o, o ∈ (StartOffsets (world W st)).1.1 -> internal.Partition o ≠ p) ->
        partitionToOffset W (Start W StartOffsets st).2 !! p
        = partitionToOffset W st !! p) ∧
  (∀ before o after,
     (StartOffsets (world W st)).1.1 = before ++ o :: after ->
     (∀ o', o' ∈ after -> internal.Partition o' ≠ internal.Partition o) ->
     partitionToOffset W (Start W StartOffsets st).2 !! internal.Partition o
     = Some (internal.Offset o)).
Proof.
  rewrite Start_run. cbn [fst snd partitionToOffset world trace].
  split; [done|]. split; [done|]. split; [done|]. split.
  - intros p Hp. apply recorded_absent. intros entry Hin.
    apply list_elem_of_fmap in Hin as (o & -> & Hin). by apply Hp.
  - intros before o after -> Hafter. rewrite fmap_app, fmap_cons.
    apply (recorded_last _ _ (internal.Partition o, internal.Offset o)).
    intros entry Hin. apply list_elem_of_fmap in Hin as (o' & -> & Hin).
    by apply Hafter.
Qed.

(** ** One message after the other *)

Lemma consume_offsets (msgs : list sarama.ConsumerMessage) st :
  partitionToOffset W (consume W Unmarshal QuerySharedUsers msgs st) =
    recorded ((fun msg => (sarama.Partition msg, sarama.Offset msg)) <$> msgs)
      (partitionToOffset W st).
Proof.
  revert st. induction msgs as [|msg msgs IH]; intros st; [done|].
  cbn [consume foldl fmap list_fmap recorded].
  fold (consume W Unmarshal QuerySharedUsers msgs
          (onMessage W Unmarshal QuerySharedUsers msg st).2).
  rewrite IH, onMessage_run. cbn [snd partitionToOffset fst].
  f_equal. f_equal. rewrite onMessageBody_run. cbv zeta.
  destruct (Unmarshal (sarama.Value msg)).2; [done|].
  by destruct (QuerySharedUsers _ _ _).1.2.
Qed.

(** X13: after [onMessage] has been called for a list of messages, one
    call after the other, the offset recorded for a partition is the offset
    of the last message of that partition, whichever of the calls failed
    and whatever the offsets of earlier messages were; a partition without
    a message keeps the offset it had. *)
Theorem consumed_offsets_follow_last_message (msgs : list sarama.ConsumerMessage) st :
  (∀ p, (∀ msg, msg ∈ msgs -> sarama.Partition msg ≠ p) ->
        partitionToOffset W (consume W Unmarshal QuerySharedUsers msgs st) !! p
        = partitionToOffset W st !! p) ∧
  (∀ before msg after,
     msgs = before ++ msg :: after ->
     (∀ msg', msg' ∈ after -> sarama.Partition msg' ≠ sarama.Partition msg) ->
     partitionToOffset W (consume W Unmarshal QuerySharedUsers msgs st)
       !! sarama.Partition msg = Some (sarama.Offset msg)).
Proof.
  rewrite consume_offsets. split.
  - intros p Hp. apply recorded_absent. intros entry Hin.
    apply list_elem_of_fmap in Hin as (msg & -> & Hin). by apply Hp.
  - intros before msg after -> Hafter. rewrite fmap_app, fmap_cons.
    apply (recorded_last _ _ (sarama.Partition msg, sarama.Offset msg)).
    intros entry Hin. apply list_elem_of_fmap in Hin as (msg' & -> & Hin).
    by apply Hafter.
Qed.

(** ** A message that fails *)

(** X14: when [onMessage] returns an error, the error is the one of the
    decoder or, for a message that decodes, the one of the room server, and
    it is logged; no user is notified.  A message that does not decode
    does not reach the room server. *)
Theorem failed_message_notifies_nobody msg st e :
  (onMessage W Unmarshal QuerySharedUsers msg st).1 = Some e ->
  (∃ evs, trace W (onMessage W Unmarshal QuerySharedUsers msg st).2
          = trace W st ++ evs ∧
          Forall (fun ev => ¬ notification ev) evs) ∧
  ((Unmarshal (sarama.Value msg)).2 = Some e ∧
   world W (onMessage W Unmarshal QuerySharedUsers msg st).2 = world W st ∧
   trace W (onMessage W Unmarshal QuerySharedUsers msg st).2
   = trace W st ++ [EvLog (LogUnmarshalFailed e)]
   ∨
   (Unmarshal (sarama.Value msg)).2 = None ∧
   (QuerySharedUsers Background (api.UserID (Unmarshal (sarama.Value msg)).1)
      (world W st)).1.2 = Some e ∧
   trace W (onMessage W Unmarshal QuerySharedUsers msg st).2
   = trace W st
     ++ [EvQuerySharedUsers Background (api.UserID (Unmarshal (sarama.Value msg)).1)
           (QuerySharedUsers Background
              (api.UserID (Unmarshal (sarama.Value msg)).1) (world W st)).1;
         EvLog (LogQuerySharedUsersFailed e)]).
Proof.
  rewrite onMessage_run, onMessageBody_run. cbv zeta.
  destruct (Unmarshal (sarama.Value msg)).2 as [e1|]; cbn [fst snd trace world].
  - intros [= <-]. split.
    + eexists. split; [done|]. apply Forall_cons_2; [simpl; tauto|apply Forall_nil_2].
    + by left.
  - destruct (QuerySharedUsers _ _ _).1.2 as [e2|]; cbn [fst snd trace world];
      [|done].
    intros [= <-]. split.
    + eexists. split; [done|].
      apply Forall_cons_2; [simpl; tauto|].
      apply Forall_cons_2; [simpl; tauto|apply Forall_nil_2].
    + by right.
Qed.

End ConsumerFacts.

(** * The theorems at work, and where the code departs from its description *)

Section Examples.

Import ServerKeyAPI Scenario.

#[local] Existing Instance runtime.

#[local] Open Scope Z_scope.

(** ** C1 *)

(** Counterexample to C1 as stated: the first fetcher answers with
    [validUntil = 200], the second with [validUntil = 150] for the same
    request, and the result map that comes back holds the entry with 150,
    not the one with 200. *)
Lemma fresher_entry_is_not_retained :
  steps (trace Z staleThenStaler.2)
    = [Fetched "first" [(reqPeer, keyValidUntil 200)];
       Stored [(reqPeer, keyValidUntil 200)] None;
       Fetched "second" [(reqPeer, keyValidUntil 150)];
       Stored [] None] ∧
  (staleThenStaler.1.1 ≫= (.!! reqPeer)) = Some (keyValidUntil 150) ∧
  (staleThenStaler.1.1 ≫= (.!! reqPeer)) ≠ Some (keyValidUntil 200).
Proof. split; [|split]; vm_compute; [reflexivity|reflexivity|discriminate]. Qed.

Lemma older_answer_replaces_entry_witness :
  (fetcherAnswer Z Background
     (answering "second" {[ reqPeer := keyValidUntil 150 ]}) holding200).1.2 = None ∧
  results Z (handleFetcherKeys Z (server emptyDatabase []) Background 1000
               (answering "second" {[ reqPeer := keyValidUntil 150 ]})
               holding200).2 !! reqPeer
    = Some (keyValidUntil 150).
Proof.
  split; [reflexivity|].
  apply (older_answer_replaces_entry Z (server emptyDatabase []) Background 1000
           (answering "second" {[ reqPeer := keyValidUntil 150 ]})
           holding200 reqPeer (keyValidUntil 200) (keyValidUntil 150)).
  - reflexivity.
  - vm_compute. reflexivity.
  - vm_compute. reflexivity.
  - vm_compute. discriminate.
Defined.

(** ** C2 *)

(** Counterexample to C2 as stated: the store after the first fetcher
    fails, the second fetcher is consulted all the same, and the call
    returns no error. *)
Lemma store_failure_does_not_abort :
  steps (trace Z storeFails.2)
    = [Fetched "first" [(reqPeer, keyValidUntil 200)];
       Stored [(reqPeer, keyValidUntil 200)] (Some (ExternalError "read-only"));
       Fetched "second" [(reqPeer, keyValidUntil 5000)];
       Stored [(reqPeer, keyValidUntil 5000)] (Some (ExternalError "read-only"))] ∧
  storeFails.1.2 = None ∧
  (storeFails.1.1 ≫= (.!! reqPeer)) = Some (keyValidUntil 5000).
Proof. split; [|split]; vm_compute; reflexivity. Qed.

Lemma store_failure_skips_to_next_fetcher_witness :
  (storeAnswer Z (server readOnlyDatabase []) Background
     (answering "first" {[ reqPeer := keyValidUntil 200 ]}) holdingNothing).1
    = Some (ExternalError "read-only") ∧
  (handleFetcherKeys Z (server readOnlyDatabase []) Background 1000
     (answering "first" {[ reqPeer := keyValidUntil 200 ]}) holdingNothing).1
    = Some (StoreKeysFailed (ExternalError "read-only")).
Proof.
  split; [reflexivity|].
  apply (store_failure_skips_to_next_fetcher Z tick (server readOnlyDatabase [])
           Background 1000 (answering "first" {[ reqPeer := keyValidUntil 200 ]})
           [answering "second" {[ reqPeer := keyValidUntil 5000 ]}]
           holdingNothing (ExternalError "read-only")).
  - reflexivity.
  - reflexivity.
  - vm_compute. discriminate.
Defined.

(** ** C3 *)

Lemma database_error_aborts_call_witness :
  EvDatabaseFetch Background {[ reqPeer := 0 ]}
    (∅, Some (ExternalError "unreachable")) ∈ trace Z databaseFails.2 ∧
  databaseFails.1 = (None, Some (ExternalError "unreachable")) ∧
  Forall (fun ev => ¬ fetchOrStore ev) (trace Z databaseFails.2).
Proof.
  assert (EvDatabaseFetch Background {[ reqPeer := 0 ]}
            (∅, Some (ExternalError "unreachable")) ∈ trace Z databaseFails.2)
    as Hin.
  { apply (list_elem_of_lookup_2 _ 2). reflexivity. }
  split; [exact Hin|].
  destruct (database_error_aborts_call Z tick
              (server brokenDatabase
                 [answering "first" {[ reqPeer := keyValidUntil 5000 ]}])
              callerCtx {[ reqSelf := 0; reqPeer := 0 ]} startOfTime
              Background {[ reqPeer := 0 ]} ∅ (ExternalError "unreachable") Hin)
    as (Hout & Hquiet & _).
  split; [exact Hout|exact Hquiet].
Defined.

(** ** C4 *)

(** Counterexample to C4 as stated: a fetcher that is asked for the peer's
    key answers with an entry for our own key as well; the call returns no
    error, and the entry returned for our own key is the fetcher's, which
    has an expiry.  When the database fetch fails for a batch with a
    request for our own key, no result map is returned at all.  And where
    the synthesized entry is returned, its validity is not counted from
    [now], the reading taken on entry, but from the later reading that the
    self-key stage takes: with a clock that advances by a millisecond at
    every reading, [now] is 1000 and the entry is valid until 3601001, not
    until 3601000. *)
Lemma self_entry_is_overwritten :
  gomatrixserverlib.ServerName reqSelf
    = ServerName Z (server emptyDatabase []) ∧
  steps (trace Z fetcherAnswersForSelf.2)
    = [Fetched "first" [(reqSelf, strangerKey); (reqPeer, keyValidUntil 5000)];
       Stored [(reqPeer, keyValidUntil 5000)] None] ∧
  fetcherAnswersForSelf.1.2 = None ∧
  (fetcherAnswersForSelf.1.1 ≫= (.!! reqSelf)) = Some strangerKey ∧
  ExpiredTS strangerKey ≠ PublicKeyNotExpired ∧
  databaseFails.1 = (None, Some (ExternalError "unreachable")) ∧
  nowOf Z tick startOfTime = 1000 ∧
  AsTimestamp (time_Add (tick startOfTime).1
                 (ServerKeyValidity Z (server emptyDatabase []))) = 3601000 ∧
  (ValidUntilTS <$> (nobodyKnowsPeer.1.1 ≫= (.!! reqSelf))) = Some 3601001.
Proof.
  split; [reflexivity|]. split; [vm_compute; reflexivity|].
  split; [vm_compute; reflexivity|]. split; [vm_compute; reflexivity|].
  split; [vm_compute; discriminate|]. split; [vm_compute; reflexivity|].
  split; [vm_compute; reflexivity|]. split; vm_compute; reflexivity.
Qed.

Lemma self_request_kept_local_witness :
  isSelf Z (server emptyDatabase []) reqSelf ∧
  is_Some (({[ reqSelf := 0; reqPeer := 0 ]} : Requests) !! reqSelf) ∧
  Forall (notAskedFor reqSelf) (trace Z nobodyKnowsPeer.2) ∧
  reading Z tick 0 startOfTime = 1000000000 ∧
  ∃ returned : Results,
    nobodyKnowsPeer.1.1 = Some returned ∧
    returned !! reqSelf
      = Some (selfKeyResult Z (server emptyDatabase []) 1001000000).
Proof.
  split; [reflexivity|]. split; [by eexists|].
  destruct (self_request_kept_local Z tick (server emptyDatabase [])
              callerCtx {[ reqSelf := 0; reqPeer := 0 ]} startOfTime reqSelf)
    as [Hasked (k & Hk & _ & _ & _ & Hentry)];
    [reflexivity|vm_compute; by eexists|].
  split; [exact Hasked|]. split; [reflexivity|].
  assert (ownRequests Z (server emptyDatabase []) {[ reqSelf := 0; reqPeer := 0 ]}
          = [reqSelf]) as Hown by (vm_compute; reflexivity).
  rewrite Hown in Hk. destruct k as [|k]; [|destruct k; discriminate Hk].
  assert (trace Z (call Z tick (server emptyDatabase []) callerCtx
                     {[ reqSelf := 0; reqPeer := 0 ]} startOfTime).2
          = [EvNow 1000000000; EvNow 1001000000;
             EvDatabaseFetch Background {[ reqPeer := 0 ]} (∅, None);
             EvLog (LogMissingKey "ed25519:p" "peer")]) as Htrace by reflexivity.
  destruct (Hentry Background {[ reqPeer := 0 ]} ∅) as (returned & Hret & Hself).
  - rewrite Htrace. apply (list_elem_of_lookup_2 _ 2). reflexivity.
  - rewrite Htrace. intros H.
    apply Exists_cons in H as [[]|H]. apply Exists_cons in H as [[]|H].
    apply Exists_cons in H as [[res H]|H]; [discriminate H|].
    apply Exists_cons in H as [[]|H]. by apply Exists_nil in H.
  - exists returned. split; [exact Hret|exact Hself].
Defined.

(** ** C5 *)

Lemma unsatisfied_request_is_reported_witness :
  EvDatabaseFetch Background {[ reqPeer := 0 ]} (∅, None)
    ∈ trace Z nobodyKnowsPeer.2 ∧
  ∃ returned : Results,
    nobodyKnowsPeer.1.1 = Some returned ∧
    is_Some (returned !! reqSelf) ∧
    returned !! reqPeer = None ∧
    nobodyKnowsPeer.1.2 = Some (RequestUnsatisfied "peer" "ed25519:p").
Proof.
  assert (EvDatabaseFetch Background {[ reqPeer := 0 ]} (∅, None)
            ∈ trace Z nobodyKnowsPeer.2) as Hin.
  { apply (list_elem_of_lookup_2 _ 2). reflexivity. }
  split; [exact Hin|].
  destruct (unsatisfied_request_is_reported Z tick (server emptyDatabase [])
              callerCtx {[ reqSelf := 0; reqPeer := 0 ]} startOfTime
              Background {[ reqPeer := 0 ]} ∅ Hin)
    as (returned & Hret & Hacc & Hhas & _ & _).
  exists returned. split; [exact Hret|]. split.
  - apply Hhas. left. split; [reflexivity|]. vm_compute. by eexists.
  - subst returned. split; vm_compute; reflexivity.
Defined.

(** ** C6 *)

(** Counterexample to C6 as stated: the caller passes a context with a
    timeout of five seconds; the database is fetched from on the background
    context and the fetcher runs on the background context with its own
    timeout, and neither context descends from the caller's. *)
Lemma caller_deadline_does_not_bound_fetches :
  callerCtx = WithTimeout Background (Second * 5) ∧
  contexts (trace Z fetcherObliges.2)
    = [Background; WithTimeout Background (Second * 30); Background] ∧
  derivedFrom Background callerCtx = false ∧
  derivedFrom (WithTimeout Background (Second * 30)) callerCtx = false.
Proof. repeat split; vm_compute; reflexivity. Qed.

(** ** C7 *)

Lemma store_batches_exclude_self_witness :
  EvStore Background {[ reqPeer := keyValidUntil 5000 ]} None
    ∈ trace Z fetcherAnswersForSelf.2 ∧
  isSelf Z (server emptyDatabase []) reqSelf ∧
  ({[ reqPeer := keyValidUntil 5000 ]} : Results) !! reqSelf = None.
Proof.
  assert (EvStore Background {[ reqPeer := keyValidUntil 5000 ]} None
            ∈ trace Z fetcherAnswersForSelf.2) as Hin.
  { apply (list_elem_of_lookup_2 _ 5). reflexivity. }
  split; [exact Hin|]. split; [reflexivity|].
  apply (store_batches_exclude_self Z tick
           (server emptyDatabase
              [answering "first" {[ reqSelf := strangerKey;
                                    reqPeer := keyValidUntil 5000 ]}])
           callerCtx {[ reqSelf := 0; reqPeer := 0 ]} startOfTime
           Background {[ reqPeer := keyValidUntil 5000 ]} None reqSelf).
  - exact Hin.
  - reflexivity.
Defined.

(** ** C8 *)

(** Counterexample to C8 as stated: the caller passes a map with a request
    for our own key and one for a peer's key; when the call returns, the
    request for our own key is gone from that map. *)
Lemma caller_map_is_modified :
  ({[ reqSelf := 0; reqPeer := 0 ]} : Requests) !! reqSelf = Some 0 ∧
  requests Z nobodyKnowsPeer.2 !! reqSelf = None ∧
  requests Z nobodyKnowsPeer.2 ≠ {[ reqSelf := 0; reqPeer := 0 ]}.
Proof.
  split; [vm_compute; reflexivity|]. split; [vm_compute; reflexivity|].
  intros H. apply (f_equal (.!! reqSelf)) in H. vm_compute in H. discriminate.
Qed.

Lemma caller_map_is_pending_set_witness :
  isSelf Z (server emptyDatabase []) reqSelf ∧
  requests Z nobodyKnowsPeer.2 ⊆ {[ reqSelf := 0; reqPeer := 0 ]} ∧
  requests Z nobodyKnowsPeer.2 !! reqSelf = None.
Proof.
  split; [reflexivity|].
  destruct (caller_map_is_pending_set Z tick (server emptyDatabase [])
              callerCtx {[ reqSelf := 0; reqPeer := 0 ]} startOfTime)
    as [Hsub Hself].
  split; [exact Hsub|]. apply Hself. reflexivity.
Defined.

(** ** C9 *)

(** Counterexample to C9 as stated: the message decodes, the query for the
    sharing users fails, and [onMessage] returns the error after the query
    and a log line; the notifier is not called, so the changed user is not
    notified. *)
Lemma failed_query_leaves_subject_unnotified :
  decode (sarama.Value aliceChanged)
    = ({| api.UserID := "alice"; api.DeviceID := ""; api.StreamID := 0 |}, None) ∧
  (KeyChange.onMessage unit decode roomServerDown aliceChanged consumerAtStart).1
    = Some (ExternalError "unreachable") ∧
  KeyChange.trace unit
    (KeyChange.onMessage unit decode roomServerDown aliceChanged consumerAtStart).2
    = [KeyChange.EvQuerySharedUsers Background "alice"
         (∅, Some (ExternalError "unreachable"));
       KeyChange.EvLog
         (KeyChange.LogQuerySharedUsersFailed (ExternalError "unreachable"))].
Proof. split; [|split]; reflexivity. Qed.

Lemma key_change_notifies_sharing_users_witness :
  decode (sarama.Value aliceChanged)
    = ({| api.UserID := "alice"; api.DeviceID := ""; api.StreamID := 0 |}, None) ∧
  ∃ notified : list string,
    KeyChange.trace unit
      (KeyChange.onMessage unit decode sharedWithBob aliceChanged consumerAtStart).2
      = KeyChange.EvQuerySharedUsers Background "alice" ({[ "bob" := 2 ]}, None)
        :: ((fun userID =>
               KeyChange.EvOnNewKeyChange
                 {| types.DeviceListPosition :=
                      {| types.Partition := 3; types.Offset := 42 |} |}
                 userID "alice") <$> notified) ∧
    "alice" ∈ notified ∧ "bob" ∈ notified.
Proof.
  split; [reflexivity|].
  destruct (key_change_notifies_sharing_users unit decode sharedWithBob
              aliceChanged consumerAtStart
              {| api.UserID := "alice"; api.DeviceID := ""; api.StreamID := 0 |})
    as (_ & _ & Hnotify); [reflexivity|].
  destruct (Hnotify {[ "bob" := 2 ]}) as (notified & Hrun & _ & Hin);
    [reflexivity|].
  exists notified. split; [by rewrite Hrun|]. split; apply Hin.
  - by left.
  - right. vm_compute. by eexists.
Defined.

(** ** C10 *)

Lemma failed_message_advances_offset_witness :
  (decode []).2 = Some (ExternalError "unexpected end of JSON input") ∧
  (roomServerDown Background "alice" tt).1.2 = Some (ExternalError "unreachable") ∧
  (KeyChange.onMessage unit decode sharedWithBob
     {| sarama.Value := []; sarama.Partition := 3; sarama.Offset := 42 |}
     consumerAtStart).1 = Some (ExternalError "unexpected end of JSON input") ∧
  KeyChange.partitionToOffset unit
    (KeyChange.onMessage unit decode sharedWithBob
       {| sarama.Value := []; sarama.Partition := 3; sarama.Offset := 42 |}
       consumerAtStart).2 !! 3 = Some 42 ∧
  (KeyChange.onMessage unit decode roomServerDown aliceChanged consumerAtStart).1
    = Some (ExternalError "unreachable") ∧
  KeyChange.partitionToOffset unit
    (KeyChange.onMessage unit decode roomServerDown aliceChanged consumerAtStart).2
    !! 3 = Some 42.
Proof.
  split; [reflexivity|]. split; [reflexivity|].
  destruct (failed_message_advances_offset unit decode sharedWithBob
              {| sarama.Value := []; sarama.Partition := 3; sarama.Offset := 42 |}
              consumerAtStart) as (Hoff1 & Herr1 & _).
  destruct (failed_message_advances_offset unit decode roomServerDown
              aliceChanged consumerAtStart) as (Hoff2 & _ & Herr2).
  split; [apply Herr1; reflexivity|].
  split; [rewrite Hoff1; vm_compute; reflexivity|].
  split; [apply Herr2; reflexivity|].
  rewrite Hoff2. vm_compute. reflexivity.
Defined.

(** ** The stages on their own *)

Lemma handleDatabaseKeys_merges_answer_witness :
  databaseAnswer Z (server warmDatabase []) Background holdingNothing
    = (({[ reqPeer := keyValidUntil 5000 ]}, None), startOfTime) ∧
  (handleDatabaseKeys Z (server warmDatabase []) Background 1000 holdingNothing).1
    = None ∧
  results Z (handleDatabaseKeys Z (server warmDatabase []) Background 1000
               holdingNothing).2
    = {[ reqPeer := keyValidUntil 5000 ]} ∪ ∅.
Proof.
  split; [reflexivity|].
  destruct (handleDatabaseKeys_merges_answer Z (server warmDatabase [])
              Background 1000 holdingNothing
              {[ reqPeer := keyValidUntil 5000 ]} startOfTime)
    as (Hret & Hres & _); [reflexivity|].
  split; [exact Hret|exact Hres].
Defined.

Lemma failed_fetcher_changes_nothing_witness :
  (fetcherAnswer Z Background (failing "first") holding200).1.2
    = Some (ExternalError "unreachable") ∧
  (handleFetcherKeys Z (server emptyDatabase []) Background 1000
     (failing "first") holding200).1 = Some (ExternalError "unreachable") ∧
  results Z (handleFetcherKeys Z (server emptyDatabase []) Background 1000
               (failing "first") holding200).2
    = {[ reqPeer := keyValidUntil 200 ]}.
Proof.
  split; [reflexivity|].
  destruct (failed_fetcher_changes_nothing Z (server emptyDatabase [])
              Background 1000 (failing "first") [] holding200
              (ExternalError "unreachable"))
    as (Hret & _ & Hres & _); [reflexivity|].
  split; [exact Hret|exact Hres].
Defined.

Lemma handleFetcherKeys_merges_and_stages_witness :
  fetcherAnswer Z Background
    (answering "first" {[ reqPeer := keyValidUntil 5000 ]}) holding200
    = (({[ reqPeer := keyValidUntil 5000 ]}, None), startOfTime) ∧
  results Z (handleFetcherKeys Z (server emptyDatabase []) Background 1000
               (answering "first" {[ reqPeer := keyValidUntil 5000 ]})
               holding200).2
    = {[ reqPeer := keyValidUntil 5000 ]} ∪ {[ reqPeer := keyValidUntil 200 ]}.
Proof.
  split; [reflexivity|].
  destruct (handleFetcherKeys_merges_and_stages Z (server emptyDatabase [])
              Background 1000
              (answering "first" {[ reqPeer := keyValidUntil 5000 ]})
              holding200 {[ reqPeer := keyValidUntil 5000 ]} startOfTime)
    as (Hres & _); [reflexivity|].
  exact Hres.
Defined.

(** ** Where a returned entry comes from *)

Lemma returned_entries_have_a_source_witness :
  (fetcherObliges.1.1 ≫= (.!! reqPeer)) = Some (keyValidUntil 5000) ∧
  Exists (answersWith reqPeer (keyValidUntil 5000)) (trace Z fetcherObliges.2).
Proof.
  assert ((fetcherObliges.1.1 ≫= (.!! reqPeer)) = Some (keyValidUntil 5000))
    as Hentry.
  { vm_compute. reflexivity. }
  split; [exact Hentry|].
  destruct fetcherObliges.1.1 as [returned|] eqn:Hreturned; [|discriminate Hentry].
  destruct (returned_entries_have_a_source Z tick
              (server emptyDatabase [obliging "first" (keyValidUntil 5000)])
              callerCtx {[ reqSelf := 0; reqPeer := 0 ]} startOfTime
              returned reqPeer (keyValidUntil 5000) Hreturned Hentry)
    as [(Hself & _)|Hsource].
  - exfalso. discriminate Hself.
  - exact Hsource.
Defined.

(** ** What the database holds *)

Lemma valid_database_answers_spare_the_fetchers_witness :
  EvDatabaseFetch Background {[ reqPeer := 0 ]}
    ({[ reqPeer := keyValidUntil 5000 ]}, None) ∈ trace Z warmCache.2 ∧
  Forall (fun ev => ¬ fetchOrStore ev) (trace Z warmCache.2) ∧
  requests Z warmCache.2 = ∅.
Proof.
  assert (EvDatabaseFetch Background {[ reqPeer := 0 ]}
            ({[ reqPeer := keyValidUntil 5000 ]}, None) ∈ trace Z warmCache.2)
    as Hin.
  { apply (list_elem_of_lookup_2 _ 2). reflexivity. }
  split; [exact Hin|].
  destruct (valid_database_answers_spare_the_fetchers Z tick
              (server warmDatabase [failing "first"])
              callerCtx {[ reqSelf := 0; reqPeer := 0 ]} startOfTime
              Background {[ reqPeer := 0 ]} {[ reqPeer := keyValidUntil 5000 ]} Hin)
    as (Hquiet & Hempty & _).
  - intros req [v Hv]. apply lookup_singleton_Some in Hv as [<- _].
    exists (keyValidUntil 5000). split; vm_compute; reflexivity.
  - split; [exact Hquiet|exact Hempty].
Defined.

Lemma unanswered_request_reaches_first_fetcher_witness :
  EvDatabaseFetch Background {[ reqPeer := 0 ]}
    ({[ reqPeer := keyValidUntil 200 ]}, None) ∈ trace Z staleCache.2 ∧
  ∃ (asked : Requests) answer,
    EvFetch "first" (WithTimeout Background (Second * 30)%Z) asked answer
      ∈ trace Z staleCache.2 ∧
    asked !! reqPeer = Some 0.
Proof.
  assert (EvDatabaseFetch Background {[ reqPeer := 0 ]}
            ({[ reqPeer := keyValidUntil 200 ]}, None) ∈ trace Z staleCache.2)
    as Hin.
  { apply (list_elem_of_lookup_2 _ 1). reflexivity. }
  split; [exact Hin|].
  destruct (unanswered_request_reaches_first_fetcher Z tick
              (server staleDatabase [obliging "first" (keyValidUntil 5000)])
              callerCtx {[ reqPeer := 0 ]} startOfTime
              Background {[ reqPeer := 0 ]} {[ reqPeer := keyValidUntil 200 ]}
              reqPeer (obliging "first" (keyValidUntil 5000)) [])
    as (asked & answer & Hfetch & Hasked).
  - reflexivity.
  - exact Hin.
  - exists 0. vm_compute. reflexivity.
  - intros Hself. vm_compute in Hself. discriminate Hself.
  - vm_compute. reflexivity.
  - exists asked, answer. split; [exact Hfetch|].
    etrans; [exact Hasked|]. vm_compute. reflexivity.
Defined.

(** ** The consumer's offsets *)

Lemma Start_records_offsets_then_returns_error_witness :
  (KeyChange.Start unit storedOffsets consumerAtStart).1
    = Some (ExternalError "connection lost") ∧
  KeyChange.partitionToOffset unit
    (KeyChange.Start unit storedOffsets consumerAtStart).2 !! 3 = Some 40 ∧
  KeyChange.partitionToOffset unit
    (KeyChange.Start unit storedOffsets consumerAtStart).2 !! 5 = Some 7.
Proof.
  destruct (Start_records_offsets_then_returns_error unit storedOffsets
              consumerAtStart) as (Herr & _ & _ & _ & Hlast).
  split; [rewrite Herr; reflexivity|]. split.
  - apply (Hlast [ {| internal.Partition := 3; internal.Offset := 41 |};
                   {| internal.Partition := 5; internal.Offset := 7 |} ]
                 {| internal.Partition := 3; internal.Offset := 40 |} []);
      [reflexivity|].
    intros o' Hin. by apply elem_of_nil in Hin.
  - apply (Hlast [ {| internal.Partition := 3; internal.Offset := 41 |} ]
                 {| internal.Partition := 5; internal.Offset := 7 |}
                 [ {| internal.Partition := 3; internal.Offset := 40 |} ]);
      [reflexivity|].
    intros o' Hin. apply list_elem_of_singleton in Hin as ->. simpl. lia.
Defined.

Lemma consumed_offsets_follow_last_message_witness :
  KeyChange.partitionToOffset unit
    (KeyChange.consume unit decode sharedWithBob [aliceChanged; undecodable]
       consumerAtStart) !! 3 = Some 43.
Proof.
  destruct (consumed_offsets_follow_last_message unit decode sharedWithBob
              [aliceChanged; undecodable] consumerAtStart) as [_ Hlast].
  apply (Hlast [aliceChanged] undecodable []); [reflexivity|].
  intros msg' Hin. by apply elem_of_nil in Hin.
Defined.

Lemma failed_message_notifies_nobody_witness :
  (KeyChange.onMessage unit decode roomServerDown aliceChanged consumerAtStart).1
    = Some (ExternalError "unreachable") ∧
  ∃ evs,
    KeyChange.trace unit
      (KeyChange.onMessage unit decode roomServerDown aliceChanged
         consumerAtStart).2 = [] ++ evs ∧
    Forall (fun ev => ¬ KeyChange.notification ev) evs.
Proof.
  split; [reflexivity|].
  apply (failed_message_notifies_nobody unit decode roomServerDown aliceChanged
           consumerAtStart (ExternalError "unreachable")).
  reflexivity.
Defined.

End Examples.
